(** * Plist.ts: the XML property-list reader of xdl, and its specification

    A shallow embedding of [packages/xdl/src/tools/Plist.ts].  The DOM tree
    that [xmldom] hands to the reader is an inductive type, the JavaScript
    values the reader returns are another one, and a thrown exception is an
    explicit outcome.  The definitions follow the source branch by branch;
    the theorems at the end settle the properties stated for the reader. *)

From Stdlib Require Import List String Ascii ZArith NArith Bool Lia.
From Stdlib.Strings Require Import Byte.
Import ListNotations.

Set Warnings "-register-all".

Local Open Scope string_scope.
Local Open Scope list_scope.

(** String concatenation, kept apart from list append. *)
Infix "+++" := String.append (right associativity, at level 60).

(** The double-quote character, written by its code. *)
Definition dq : string := String "034"%char EmptyString.

(** ** Strings

    A JavaScript string is a sequence of UTF-16 code units.  The model keeps
    the code units below 256: one [ascii] per code unit. *)

Module Str.

Definition code (c : ascii) : N := N_of_ascii c.

(** [\s] of a regular expression and the white space [parseInt] skips
    agree on the code units below 256: TAB, LF, VT, FF, CR, SP, NBSP. *)
Definition is_whitespace (c : ascii) : bool :=
  let n := code c in
  ((9 <=? n) && (n <=? 13) || (n =? 32) || (n =? 160))%N.

(** [s.replace(/\s+/g, '')] *)
Fixpoint strip_whitespace (s : string) : string :=
  match s with
  | EmptyString => EmptyString
  | String c s' =>
      if is_whitespace c then strip_whitespace s'
      else String c (strip_whitespace s')
  end.

Fixpoint trim_start (s : string) : string :=
  match s with
  | EmptyString => EmptyString
  | String c s' => if is_whitespace c then trim_start s' else s
  end.

Definition is_digit (c : ascii) : bool :=
  ((48 <=? code c) && (code c <=? 57))%N.

Definition digit_value (c : ascii) : Z := (Z.of_N (code c) - 48)%Z.

(** The longest prefix of decimal digits, read as a number; [None] when
    the string does not start with a digit. *)
Fixpoint read_digits (s : string) (acc : option Z) : option Z :=
  match s with
  | EmptyString => acc
  | String c s' =>
      if is_digit c
      then read_digits s'
             (Some (match acc with
                    | Some n => (10 * n + digit_value c)%Z
                    | None => digit_value c
                    end))
      else acc
  end.

Fixpoint all_digits (s : string) : bool :=
  match s with
  | EmptyString => true
  | String c s' => is_digit c && all_digits s'
  end.

(** The text of a [<key>] is a string, or [null] when the first child of
    the element carries no value: ['' + null] is ["null"]. *)
Definition of_nullable (v : option string) : string :=
  match v with
  | Some s => s
  | None => "null"
  end.

End Str.

(** ** The DOM tree

    The node kinds the reader tells apart below a document element.  A
    text, CDATA or comment node has no child list ([childNodes] is [null]
    there, which [isEmptyNode] treats as an empty list). *)

Inductive Node : Type :=
| Element (tagName : string) (children : list Node)
| Text (data : string)
| CDATASection (data : string)
| Comment (data : string).

Definition ELEMENT_NODE : Z := 1.
Definition TEXT_NODE : Z := 3.
Definition CDATA_NODE : Z := 4.
Definition COMMENT_NODE : Z := 8.

Definition nodeType (node : Node) : Z :=
  match node with
  | Element _ _ => ELEMENT_NODE
  | Text _ => TEXT_NODE
  | CDATASection _ => CDATA_NODE
  | Comment _ => COMMENT_NODE
  end.

Definition nodeName (node : Node) : string :=
  match node with
  | Element name _ => name
  | Text _ => "#text"
  | CDATASection _ => "#cdata-section"
  | Comment _ => "#comment"
  end.

Definition nodeValue (node : Node) : option string :=
  match node with
  | Element _ _ => None
  | Text v | CDATASection v | Comment v => Some v
  end.

Definition childNodes (node : Node) : list Node :=
  match node with
  | Element _ cs => cs
  | _ => []
  end.

(** [shouldIgnoreNode]: raw text, comments and raw CDATA are skipped. *)
Definition shouldIgnoreNode (node : Node) : bool :=
  ((nodeType node =? TEXT_NODE) || (nodeType node =? COMMENT_NODE)
   || (nodeType node =? CDATA_NODE))%Z.

(** [isEmptyNode]: no child list, or an empty one. *)
Definition isEmptyNode (node : Node) : bool :=
  match childNodes node with
  | [] => true
  | _ :: _ => false
  end.

(** The children a container element iterates over. *)
Definition significant (cs : list Node) : list Node :=
  filter (fun c => negb (shouldIgnoreNode c)) cs.

(** ** JavaScript values *)

(** A Number.  [Int z] is the mathematical value [parseInt] reads (its
    rounding to a double, and the sign of a zero, are not modelled);
    [parseFloat s] stands for the double that [parseFloat] yields on [s],
    left unevaluated. *)
Inductive number : Type :=
| NaN
| Int (z : Z)
| parseFloat (s : string).

(** A plain object: the own properties in creation order, and the prototype
    when an assignment to [__proto__] replaced [Object.prototype]. *)
Record object_of (V : Type) : Type := mkObject {
  prototype : option V;
  properties : list (string * V)
}.
Arguments mkObject {V} _ _.
Arguments prototype {V} _.
Arguments properties {V} _.

Inductive value : Type :=
| JSUndefined
| JSNull
| JSBool (b : bool)
| JSString (s : string)
| JSNumber (n : number)
| JSBuffer (bytes : list byte)
| JSDate (arg : option string)          (* [new Date(arg)], unevaluated *)
| JSArray (elems : list value)
| JSObject (o : object_of value).

Definition object : Type := object_of value.

(** [res != null]: loose inequality, false on [null] and [undefined] only. *)
Definition loosely_null (v : value) : bool :=
  match v with
  | JSUndefined | JSNull => true
  | _ => false
  end.

Definition is_null (v : value) : bool :=
  match v with
  | JSNull => true
  | _ => false
  end.

Definition is_object (v : value) : bool :=
  match v with
  | JSBuffer _ | JSDate _ | JSArray _ | JSObject _ => true
  | _ => false
  end.

(** ** Outcomes *)

Inductive exn : Type :=
| InvariantViolation (message : string) (* [invariant(false, format)] *)
| Error (message : string)              (* [throw new Error(message)] *)
| TypeError.                            (* raised by the language itself *)

(** An evaluation returns, throws, or leaves the model.  What the model
    does not determine is the use of an object whose prototype a [__proto__]
    key has replaced: a further assignment to it, and its conversion to a
    string. *)
Inductive completion (A : Type) : Type :=
| Return (a : A)
| Throw (e : exn)
| Unmodelled.
Arguments Return {A} _.
Arguments Throw {A} _.
Arguments Unmodelled {A}.

Definition bind {A B} (c : completion A) (k : A -> completion B)
  : completion B :=
  match c with
  | Return a => k a
  | Throw e => Throw e
  | Unmodelled => Unmodelled
  end.

Notation "x <- c ;; k" := (bind c (fun x => k))
  (at level 61, c at next level, right associativity).

(** The message of the [invariant] package:
    [format.replace(/%s/g, function () { return args[argIndex++]; })].  The
    source passes no argument after the format, so every [%s] of the format,
    from left to right, becomes [undefined]. *)
Fixpoint format_message (format : string) : string :=
  match format with
  | EmptyString => EmptyString
  | String c rest =>
      match rest with
      | String d rest' =>
          if ((c =? "%") && (d =? "s"))%char
          then "undefined" +++ format_message rest'
          else String c (format_message rest)
      | EmptyString => String c EmptyString
      end
  end.

(** A failed [invariant(condition, format)]: an error with that message. *)
Definition violated {A} (format : string) : completion A :=
  Throw (InvariantViolation (format_message format)).

(** [invariant(condition, format)] of the [invariant] package. *)
Definition invariant (condition : bool) (format : string) : completion unit :=
  if condition then Return tt else violated format.

(** ** Language and platform operations *)

(** [parseInt(text, 10)]: leading white space, an optional sign, then the
    longest run of decimal digits; [NaN] when there is none. *)
Definition parseInt (text : string) : number :=
  let s := Str.trim_start text in
  let '(negative, s) :=
    match s with
    | String "-"%char r => (true, r)
    | String "+"%char r => (false, r)
    | _ => (false, s)
    end in
  match Str.read_digits s None with
  | None => NaN
  | Some n => Int (if negative then (- n)%Z else n)
  end.

Module Obj.

Definition empty : object := mkObject None [].

Fixpoint assign (k : string) (v : value) (ps : list (string * value))
  : list (string * value) :=
  match ps with
  | [] => [(k, v)]
  | (k', v') :: ps' =>
      if k' =? k then (k, v) :: ps' else (k', v') :: assign k v ps'
  end.

(** [o[k] = v] on a plain object.  An existing own property keeps its
    place; a new one is created last.  [__proto__] is the accessor of
    [Object.prototype]: it replaces the prototype when [v] is an object or
    [null], does nothing otherwise, and never creates an own property.
    Once the prototype is replaced an assignment goes through whatever the
    new chain provides (an accessor, or the elements of a buffer, can take
    it over): the model stops there. *)
Definition set (o : object) (k : string) (v : value) : completion object :=
  match prototype o with
  | Some _ => Unmodelled
  | None =>
      if k =? "__proto__" then
        if is_object v || is_null v
        then Return (mkObject (Some v) (properties o))
        else Return o
      else Return (mkObject None (assign k v (properties o)))
  end.

(** Own-property lookup ([hasOwnProperty] and read). *)
Fixpoint lookup (k : string) (ps : list (string * value)) : option value :=
  match ps with
  | [] => None
  | (k', v) :: ps' => if k' =? k then Some v else lookup k ps'
  end.

Definition get (o : object) (k : string) : option value :=
  lookup k (properties o).

(** An array index: the canonical decimal form of an integer below
    [2^32 - 1]. *)
Definition index_of (k : string) : option Z :=
  match k with
  | EmptyString => None
  | String c rest =>
      if Str.all_digits k
         && ((c =? "0")%char && (rest =? "") || negb (c =? "0")%char)
      then match Str.read_digits k None with
           | Some n => if (n <? 4294967295)%Z then Some n else None
           | None => None
           end
      else None
  end.

Definition is_index (k : string) : bool :=
  match index_of k with Some _ => true | None => false end.

Fixpoint insert_sorted (k : string) (ks : list string) : list string :=
  match ks with
  | [] => [k]
  | k' :: ks' =>
      match index_of k, index_of k' with
      | Some n, Some n' =>
          if (n <=? n')%Z then k :: ks else k' :: insert_sorted k ks'
      | _, _ => k :: ks
      end
  end.

Definition sort_indices (ks : list string) : list string :=
  fold_right insert_sorted [] ks.

(** [Object.keys(o)]: array indices in ascending order, then the other
    keys in creation order. *)
Definition keys (o : object) : list string :=
  let ks := map fst (properties o) in
  sort_indices (filter is_index ks)
  ++ filter (fun k => negb (is_index k)) ks.

End Obj.

(** ** Base64

    [Buffer.from(text, 'base64')] is Node's forgiving decoder: a character
    outside the alphabet is skipped, the first [=] ends the input, every
    four sextets give three bytes and a final group of two or three gives
    one or two; it never fails.  [encode] is the standard padded encoder
    ([buffer.toString('base64')]). *)

Module Base64.

Definition alphabet : string :=
  "ABCDEFGHIJKLMNOPQRSTUVWXYZabcdefghijklmnopqrstuvwxyz0123456789+/".

Definition char_of_sextet (x : N) : ascii :=
  match String.get (N.to_nat x) alphabet with
  | Some c => c
  | None => "="%char
  end.

(** The decoder's table; it also takes the URL-safe [-] and [_]. *)
Definition unbase64 (c : ascii) : option N :=
  let n := Str.code c in
  (if (65 <=? n) && (n <=? 90) then Some (n - 65)
   else if (97 <=? n) && (n <=? 122) then Some (n - 71)
   else if (48 <=? n) && (n <=? 57) then Some (n + 4)
   else if (n =? 43) || (n =? 45) then Some 62
   else if (n =? 47) || (n =? 95) then Some 63
   else None)%N.

Definition to_byte (n : N) : byte :=
  match Byte.of_N (n mod 256) with
  | Some b => b
  | None => x00
  end.

Fixpoint sextets (s : string) : list N :=
  match s with
  | EmptyString => []
  | String c s' =>
      if (c =? "=")%char then []
      else match unbase64 c with
           | Some x => x :: sextets s'
           | None => sextets s'
           end
  end.

Definition byte1 (a b : N) : byte := to_byte (a * 4 + b / 16).
Definition byte2 (b c : N) : byte := to_byte ((b mod 16) * 16 + c / 4).
Definition byte3 (c d : N) : byte := to_byte ((c mod 4) * 64 + d).

Fixpoint bytes_of_sextets (xs : list N) : list byte :=
  match xs with
  | a :: b :: c :: d :: rest =>
      byte1 a b :: byte2 b c :: byte3 c d :: bytes_of_sextets rest
  | [a; b; c] => [byte1 a b; byte2 b c]
  | [a; b] => [byte1 a b]
  | _ => []
  end.

Definition decode (s : string) : list byte :=
  bytes_of_sextets (sextets s).

Definition c1 (a : byte) : ascii := char_of_sextet (Byte.to_N a / 4).
Definition c2 (a b : byte) : ascii :=
  char_of_sextet ((Byte.to_N a mod 4) * 16 + Byte.to_N b / 16).
Definition c3 (b c : byte) : ascii :=
  char_of_sextet ((Byte.to_N b mod 16) * 4 + Byte.to_N c / 64).
Definition c4 (c : byte) : ascii := char_of_sextet (Byte.to_N c mod 64).

Fixpoint encode (bs : list byte) : string :=
  match bs with
  | [] => ""
  | [a] => String (c1 a) (String (c2 a x00) "==")
  | [a; b] => String (c1 a) (String (c2 a b) (String (c3 b x00) "="))
  | a :: b :: c :: rest =>
      String (c1 a) (String (c2 a b) (String (c3 b c) (String (c4 c)
        (encode rest))))
  end.

End Base64.

(** ** String conversion of a built value

    ['...' + v] converts [v] to a primitive first.  The string it yields is
    not modelled, only whether the conversion completes.  Nothing the reader
    stores in an object is callable, so a plain object converts through
    [Object.prototype.toString] unless an own [toString] property hides it,
    in which case no method yields a primitive and a [TypeError] is thrown.
    An array converts through [join], which converts every element that is
    neither [undefined] nor [null]. *)

Fixpoint ToPrimitive (v : value) : completion unit :=
  match v with
  | JSArray elems =>
      (fix join (l : list value) : completion unit :=
         match l with
         | [] => Return tt
         | e :: l' =>
             if loosely_null e then join l'
             else _ <- ToPrimitive e ;; join l'
         end) elems
  | JSObject o =>
      match prototype o with
      | Some _ => Unmodelled
      | None =>
          match Obj.get o "toString" with
          | Some _ => Throw TypeError
          | None => Return tt
          end
      end
  | _ => Return tt
  end.

(** ** The reader *)

(** The [key] branch: the empty string for an empty element, else the
    [nodeValue] of the first child ([null] when that child is an element). *)
Definition parseKey (node : Node) : option string :=
  match childNodes node with
  | [] => Some ""
  | first :: _ => nodeValue first
  end.

Definition value_of_key (k : option string) : value :=
  match k with
  | Some s => JSString s
  | None => JSNull
  end.

Definition missing_key : string := "Missing key while parsing <dict/>.".

Definition unexpected_key (text : string) : string :=
  "Unexpected key " +++ dq +++ text +++ dq +++ " while parsing <dict/>.".

Definition missing_value (text : string) : string :=
  "Missing value for " +++ dq +++ text +++ dq +++ " while parsing <dict/>".

Definition cannot_parse (what : string) : string :=
  "Cannot parse " +++ dq +++ dq +++ " as " +++ what +++ ".".

Section Loops.

(** The recursive call on a child. *)
Variable parsePlistXML : Node -> completion value.

(** Lines 79-84: every child that is not ignored is built and pushed. *)
Fixpoint plist_loop (cs : list Node) (new_arr : list value)
  : completion value :=
  match cs with
  | [] => Return (JSArray new_arr)
  | c :: cs' =>
      if negb (shouldIgnoreNode c) then
        res <- parsePlistXML c ;;
        plist_loop cs' (new_arr ++ [res])
      else plist_loop cs' new_arr
  end.

(** Lines 92-109.  [key] is [null] or the text of the last [<key>]: at a
    key position the child that passes the check is named [key], and
    [parsePlistXML] gives it the text [parseKey] computes.  At a value
    position both arguments of [invariant] are evaluated before the call:
    the message embeds [parsePlistXML] of the child, so a child that throws,
    or whose value does not convert to a string, ends the loop there; the
    child is built again for the assignment, with the same result.  For a
    child named [key] that embedded value is its text. *)
Fixpoint dict_loop (cs : list Node) (key : option string) (counter : N)
         (new_obj : object) : completion value :=
  match cs with
  | [] =>
      if (counter mod 2 =? 1)%N
      then Throw (Error (missing_value (Str.of_nullable key)))
      else Return (JSObject new_obj)
  | c :: cs' =>
      if shouldIgnoreNode c then dict_loop cs' key counter new_obj
      else if (counter mod 2 =? 0)%N then
        _ <- invariant (nodeName c =? "key") missing_key ;;
        dict_loop cs' (parseKey c) (counter + 1)%N new_obj
      else if nodeName c =? "key" then
        violated (unexpected_key (Str.of_nullable (parseKey c)))
      else
        res <- parsePlistXML c ;;
        _ <- ToPrimitive res ;;
        new_obj' <- Obj.set new_obj (Str.of_nullable key) res ;;
        dict_loop cs' key (counter + 1)%N new_obj'
  end.

(** Lines 115-120: a child that builds to [null] or [undefined] is not
    pushed. *)
Fixpoint array_loop (cs : list Node) (new_arr : list value)
  : completion value :=
  match cs with
  | [] => Return (JSArray new_arr)
  | c :: cs' =>
      if negb (shouldIgnoreNode c) then
        res <- parsePlistXML c ;;
        if negb (loosely_null res)
        then array_loop cs' (new_arr ++ [res])
        else array_loop cs' new_arr
      else array_loop cs' new_arr
  end.

End Loops.

(** Lines 134-139: the values of the text and CDATA children. *)
Fixpoint string_loop (cs : list Node) (res : string) : string :=
  match cs with
  | [] => res
  | c :: cs' =>
      match c with
      | Text v | CDATASection v => string_loop cs' (res +++ v)
      | _ => string_loop cs' res
      end
  end.

(** Lines 147-151: the values of the text children. *)
Fixpoint real_loop (cs : list Node) (res : string) : string :=
  match cs with
  | [] => res
  | c :: cs' =>
      match c with
      | Text v => real_loop cs' (res +++ v)
      | _ => real_loop cs' res
      end
  end.

(** Lines 158-162: the values of the text children, each without its white
    space. *)
Fixpoint data_loop (cs : list Node) (res : string) : string :=
  match cs with
  | [] => res
  | c :: cs' =>
      match c with
      | Text v => data_loop cs' (res +++ Str.strip_whitespace v)
      | _ => data_loop cs' res
      end
  end.

(** The branches that do not recurse, for a node named [name] with the
    child list [cs]; an empty [cs] is the case [isEmptyNode(node)]. *)
Definition parse_leaf (name : string) (cs : list Node) : completion value :=
  if name =? "#text" then Return JSUndefined
  else if name =? "key" then
    match cs with
    | [] => Return (JSString "")
    | first :: _ => Return (value_of_key (nodeValue first))
    end
  else if name =? "string" then
    match cs with
    | [] => Return (JSString "")
    | _ => Return (JSString (string_loop cs ""))
    end
  else if name =? "integer" then
    match cs with
    | [] => violated (cannot_parse "integer")
    | first :: _ =>
        Return (JSNumber (parseInt (Str.of_nullable (nodeValue first))))
    end
  else if name =? "real" then
    match cs with
    | [] => violated (cannot_parse "real")
    | _ => Return (JSNumber (parseFloat (real_loop cs "")))
    end
  else if name =? "data" then
    match cs with
    | [] => Return (JSBuffer (Base64.decode ""))
    | _ => Return (JSBuffer (Base64.decode (data_loop cs "")))
    end
  else if name =? "date" then
    match cs with
    | [] => violated (cannot_parse "Date")
    | first :: _ => Return (JSDate (nodeValue first))
    end
  else if name =? "true" then Return (JSBool true)
  else if name =? "false" then Return (JSBool false)
  else Return JSUndefined.

(** [parsePlistXML]: dispatch on the node name.  A container returns early
    on an empty child list, as [isEmptyNode(node)] has it. *)
Fixpoint parsePlistXML (node : Node) : completion value :=
  match node with
  | Element name cs =>
      if name =? "plist" then
        match cs with
        | [] => Return (JSArray [])
        | _ => plist_loop parsePlistXML cs []
        end
      else if name =? "dict" then
        match cs with
        | [] => Return (JSObject Obj.empty)
        | _ => dict_loop parsePlistXML cs None 0%N Obj.empty
        end
      else if name =? "array" then
        match cs with
        | [] => Return (JSArray [])
        | _ => array_loop parsePlistXML cs []
        end
      else parse_leaf name cs
  | Text _ | CDATASection _ | Comment _ => parse_leaf (nodeName node) []
  end.

(** [parse], from the document element that [DOMParser] produced. *)
Definition parse (documentElement : Node) : completion value :=
  _ <- invariant (nodeName documentElement =? "plist")
         "malformed document. First element should be <plist>" ;;
  plist <- parsePlistXML documentElement ;;
  match plist with
  | JSArray [only] => Return only
  | _ => Return plist
  end.

(** ** Vocabulary of the statements *)

(** The significant children of a well-formed [<dict>]: a key element, its
    value element, the next key element, and so on. *)
Definition interleave (kvs : list (Node * Node)) : list Node :=
  flat_map (fun kv => [fst kv; snd kv]) kvs.

Definition alternating (kvs : list (Node * Node)) : Prop :=
  Forall (fun kv => nodeName (fst kv) = "key" /\ nodeName (snd kv) <> "key")
         kvs.

(** The string a key element stands for: its text, as a property name. *)
Definition key_text (k : Node) : string := Str.of_nullable (parseKey k).

(** Every value element is built, and its value converts to a string. *)
Definition built (kvs : list (Node * Node)) (ws : list value) : Prop :=
  Forall2 (fun kv w =>
             parsePlistXML (snd kv) = Return w /\ ToPrimitive w = Return tt)
          kvs ws.

(** The key strings with the built values, in document order. *)
Definition entries (kvs : list (Node * Node)) (ws : list value)
  : list (string * value) :=
  combine (map (fun kv => key_text (fst kv)) kvs) ws.

(** The assignments [o[k] = v], one entry after the other. *)
Fixpoint store (o : object) (es : list (string * value))
  : completion object :=
  match es with
  | [] => Return o
  | (k, v) :: es' => o' <- Obj.set o k v ;; store o' es'
  end.

(** The same on the property list alone. *)
Definition assign_all (es ps : list (string * value))
  : list (string * value) :=
  fold_left (fun ps e => Obj.assign (fst e) (snd e) ps) es ps.

Definition mem (k : string) (ks : list string) : bool :=
  existsb (String.eqb k) ks.

(** The keys seen so far, then the new ones as they come. *)
Definition add_new (seen ks : list string) : list string :=
  fold_left (fun seen k => if mem k seen then seen else seen ++ [k]) ks seen.

(** The strings of a list in the order of their first occurrence. *)
Fixpoint first_occurrences (ks : list string) : list string :=
  match ks with
  | [] => []
  | k :: ks' => k :: filter (fun k' => negb (k' =? k)) (first_occurrences ks')
  end.

(** The values of the text children, concatenated. *)
Fixpoint text_values (cs : list Node) : string :=
  match cs with
  | [] => ""
  | Text v :: cs' => v +++ text_values cs'
  | _ :: cs' => text_values cs'
  end.

(** No dictionary slot and no list element, at any depth, is [undefined]
    or [null]. *)
Fixpoint no_absent_member (v : value) : bool :=
  match v with
  | JSArray elems =>
      (fix all (l : list value) : bool :=
         match l with
         | [] => true
         | e :: l' => negb (loosely_null e) && no_absent_member e && all l'
         end) elems
  | JSObject o =>
      (fix all (ps : list (string * value)) : bool :=
         match ps with
         | [] => true
         | (_, e) :: ps' =>
             negb (loosely_null e) && no_absent_member e && all ps'
         end) (properties o)
  | _ => true
  end.


(** A string without its sign character, if it starts with one. *)
Definition unsigned (s : string) : string :=
  match s with
  | String "-"%char r | String "+"%char r => r
  | _ => s
  end.

Definition starts_with_digit (s : string) : bool :=
  match s with
  | EmptyString => false
  | String c _ => Str.is_digit c
  end.

(** A base-10 signed integer literal: an optional sign, then digits only,
    at least one. *)
Definition is_decimal_integer (s : string) : bool :=
  negb (unsigned s =? "") && Str.all_digits (unsigned s).

(** ** Sample documents *)

Module Sample.

Definition key (text : string) : Node := Element "key" [Text text].
Definition integer (text : string) : Node := Element "integer" [Text text].
Definition str (text : string) : Node := Element "string" [Text text].
Definition empty (name : string) : Node := Element name [].

(** [<dict> <key>b</key><integer>1</integer> <key>a</key><true/>
    <key>b</key><string>x</string> </dict>] *)
Definition dict_pairs : list (Node * Node) :=
  [(key "b", integer "1"); (key "a", empty "true"); (key "b", str "x")].

Definition dict_children : list Node :=
  [Text " "; key "b"; integer "1"; Comment "c"; key "a"; empty "true";
   key "b"; str "x"; Text " "].

Definition dict_values : list value :=
  [JSNumber (Int 1); JSBool true; JSString "x"].

(** [<dict><key>a</key><integer/></dict>] *)
Definition dict_empty_integer : list Node := [key "a"; empty "integer"].

(** [<dict><key>a</key><integer/><key>b</key></dict>] *)
Definition dict_dangling_after_failure : list Node :=
  [key "a"; empty "integer"; key "b"].


(** [<dict><key>2</key><true/><key>1</key><false/></dict>] *)
Definition dict_index_keys : list Node :=
  [key "2"; empty "true"; key "1"; empty "false"].

(** [<dict><key>__proto__</key><string>x</string></dict>] *)
Definition dict_proto_key : list Node := [key "__proto__"; str "x"].

(** [<dict><key>a</key><dict><key>toString</key><string>x</string></dict>
    </dict>] *)
Definition dict_toString_key : list Node :=
  [key "a"; Element "dict" [key "toString"; str "x"]].

(** [<dict><key>a</key><foo/></dict>] *)
Definition dict_unknown_value : list Node := [key "a"; empty "foo"].

(** [<array><false/> <foo/><integer>0</integer><string/></array>] *)
Definition array_falsy : list Node :=
  [empty "false"; Text " "; empty "foo"; integer "0"; empty "string"].

Definition array_falsy_values : list value :=
  [JSBool false; JSUndefined; JSNumber (Int 0); JSString ""].

Definition hello : list byte := [x68; x65; x6c; x6c; x6f].

End Sample.

(** ** Further vocabulary *)

(** The element names the dispatch knows. *)
Definition recognized_names : list string :=
  ["plist"; "dict"; "array"; "key"; "string"; "integer"; "real"; "data";
   "date"; "true"; "false"].

(** The format of the root check of [parse]. *)
Definition malformed_document : string :=
  "malformed document. First element should be <plist>".

(** The exceptions the source raises, or lets the language raise. *)
Definition reader_error (e : exn) : Prop :=
  e = InvariantViolation missing_key
  \/ (exists text, e = InvariantViolation (unexpected_key text))
  \/ (exists text, e = Error (missing_value text))
  \/ e = InvariantViolation (cannot_parse "integer")
  \/ e = InvariantViolation (cannot_parse "real")
  \/ e = InvariantViolation (cannot_parse "Date")
  \/ e = TypeError.

(** Every child that throws, throws one of them. *)
Definition children_throw_reader_errors
           (P : Node -> completion value) (cs : list Node) : Prop :=
  Forall (fun c => forall e, P c = Throw e -> reader_error e) cs.

(** The values of the text and CDATA children, concatenated. *)
Fixpoint character_data (cs : list Node) : string :=
  match cs with
  | [] => ""
  | Text v :: cs' | CDATASection v :: cs' => v +++ character_data cs'
  | _ :: cs' => character_data cs'
  end.

(** * Properties *)

(** ** Strings and messages *)

Lemma append_assoc (a b c : string) : (a +++ b) +++ c = a +++ b +++ c.
Proof. induction a as [|x a IH]; simpl; [reflexivity|now rewrite IH]. Qed.

Lemma format_message_step c d r :
  format_message (String c (String d r))
  = if ((c =? "%") && (d =? "s"))%char
    then "undefined" +++ format_message r
    else String c (format_message (String d r)).
Proof. reflexivity. Qed.

Lemma format_message_cons c s :
  c <> "%"%char -> format_message (String c s) = String c (format_message s).
Proof.
  intros H. apply Ascii.eqb_neq in H. destruct s as [|d r]; [reflexivity|].
  now rewrite format_message_step, H.
Qed.

(** A text is formatted on its own when what follows does not start with
    an [s]. *)
Lemma format_message_append_bounded n :
  forall t,
    String.length t <= n ->
    forall d r,
      d <> "s"%char ->
      format_message (t +++ String d r)
      = format_message t +++ format_message (String d r).
Proof.
  induction n as [|n IH]; intros t Hlen d r Hd.
  - destruct t; [reflexivity|simpl in Hlen; lia].
  - destruct t as [|c [|c2 t]]; [reflexivity| |].
    + cbn [append]. rewrite format_message_step.
      apply Ascii.eqb_neq in Hd. rewrite Hd, andb_false_r. reflexivity.
    + cbn [append]. rewrite !format_message_step.
      simpl in Hlen.
      destruct ((c =? "%") && (c2 =? "s"))%char.
      * rewrite IH by (assumption || lia). now rewrite append_assoc.
      * change (String c2 (t +++ String d r))
          with (String c2 t +++ String d r).
        rewrite IH by (assumption || (simpl; lia)). reflexivity.
Qed.

Lemma format_message_append t d r :
  d <> "s"%char ->
  format_message (t +++ String d r)
  = format_message t +++ format_message (String d r).
Proof. now apply (format_message_append_bounded (String.length t)). Qed.

(** Only the key text of the unexpected-key format can hold a [%s]. *)
Lemma format_message_unexpected_key text :
  format_message (unexpected_key text) = unexpected_key (format_message text).
Proof.
  unfold unexpected_key, dq. cbn [append].
  repeat (rewrite format_message_cons by discriminate; f_equal).
  now rewrite format_message_append by discriminate.
Qed.


(** ** Unfolding the dispatch *)

Lemma parse_plist cs :
  parsePlistXML (Element "plist" cs) = plist_loop parsePlistXML cs [].
Proof. destruct cs; reflexivity. Qed.

Lemma parse_dict cs :
  parsePlistXML (Element "dict" cs)
  = dict_loop parsePlistXML cs None 0%N Obj.empty.
Proof. destruct cs; reflexivity. Qed.

Lemma parse_array cs :
  parsePlistXML (Element "array" cs) = array_loop parsePlistXML cs [].
Proof. destruct cs; reflexivity. Qed.

(** A node named [key] is an element; the reader gives it the text
    [parseKey] computes. *)
Lemma parse_key_node node :
  nodeName node = "key" ->
  parsePlistXML node = Return (value_of_key (parseKey node)).
Proof.
  destruct node as [name cs| | |]; simpl; intros H; try discriminate; subst.
  destruct cs; reflexivity.
Qed.

Lemma named_key_not_ignored node :
  nodeName node = "key" -> shouldIgnoreNode node = false.
Proof. destruct node; simpl; intros H; try discriminate; reflexivity. Qed.

Lemma significant_cons c cs :
  significant (c :: cs)
  = if shouldIgnoreNode c then significant cs else c :: significant cs.
Proof.
  unfold significant; simpl. destruct (shouldIgnoreNode c); reflexivity.
Qed.

Lemma significant_not_ignored cs :
  Forall (fun c => shouldIgnoreNode c = false) (significant cs).
Proof.
  apply Forall_forall. intros c H. apply filter_In in H.
  destruct H as [_ H]. now apply negb_true_iff in H.
Qed.

Lemma isEmptyNode_childNodes node :
  isEmptyNode node = true <-> childNodes node = [].
Proof.
  unfold isEmptyNode. destruct (childNodes node); split; intros H;
    try reflexivity; discriminate.
Qed.

(** ** Loops over the children *)

Section LoopFacts.

Variable P : Node -> completion value.

Lemma plist_loop_significant cs acc :
  plist_loop P cs acc = plist_loop P (significant cs) acc.
Proof.
  revert acc. induction cs as [|c cs IH]; intros acc; [reflexivity|].
  rewrite significant_cons. simpl.
  destruct (shouldIgnoreNode c) eqn:E; simpl.
  - apply IH.
  - rewrite E. simpl. destruct (P c); simpl; auto.
Qed.

Lemma array_loop_significant cs acc :
  array_loop P cs acc = array_loop P (significant cs) acc.
Proof.
  revert acc. induction cs as [|c cs IH]; intros acc; [reflexivity|].
  rewrite significant_cons. simpl.
  destruct (shouldIgnoreNode c) eqn:E; simpl.
  - apply IH.
  - rewrite E. simpl. destruct (P c) as [v| |]; simpl; auto.
    destruct (loosely_null v); simpl; auto.
Qed.

Lemma dict_loop_significant cs key n o :
  dict_loop P cs key n o = dict_loop P (significant cs) key n o.
Proof.
  revert key n o. induction cs as [|c cs IH]; intros key n o; [reflexivity|].
  rewrite significant_cons. simpl.
  destruct (shouldIgnoreNode c) eqn:E; simpl.
  - apply IH.
  - rewrite E.
    destruct (n mod 2 =? 0)%N.
    + destruct (invariant (nodeName c =? "key") missing_key); simpl; auto.
    + destruct (nodeName c =? "key"); auto.
      destruct (P c) as [v| |]; simpl; auto.
      destruct (ToPrimitive v); simpl; auto.
      destruct (Obj.set o (Str.of_nullable key) v); simpl; auto.
Qed.

(** The list a [plist] node builds holds the result of every significant
    child, absent results included. *)
Lemma plist_loop_built cs vs acc :
  Forall2 (fun c v => P c = Return v) (significant cs) vs ->
  plist_loop P cs acc = Return (JSArray (acc ++ vs)).
Proof.
  rewrite plist_loop_significant.
  generalize (significant_not_ignored cs).
  generalize (significant cs). clear cs. intros cs Hs H. revert acc.
  induction H as [|c v cs vs Hc _ IH]; intros acc; simpl.
  - now rewrite app_nil_r.
  - inversion Hs as [|? ? Hi Hs']; subst.
    rewrite Hi, Hc. simpl. rewrite (IH Hs'), <- app_assoc. reflexivity.
Qed.

Lemma plist_loop_outcome cs acc :
  match plist_loop P cs acc with
  | Return r => exists l, r = JSArray l
  | _ => True
  end.
Proof.
  revert acc. induction cs as [|c cs IH]; intros acc; simpl.
  - eauto.
  - destruct (shouldIgnoreNode c); simpl; [apply IH|].
    destruct (P c); simpl; auto. apply IH.
Qed.

(** The list an [array] node builds holds the result of every significant
    child except the absent ones, in order. *)
Lemma array_loop_built cs vs acc :
  Forall2 (fun c v => P c = Return v) (significant cs) vs ->
  array_loop P cs acc
  = Return (JSArray (acc ++ filter (fun v => negb (loosely_null v)) vs)).
Proof.
  rewrite array_loop_significant.
  generalize (significant_not_ignored cs).
  generalize (significant cs). clear cs. intros cs Hs H. revert acc.
  induction H as [|c v cs vs Hc _ IH]; intros acc; simpl.
  - now rewrite app_nil_r.
  - inversion Hs as [|? ? Hi Hs']; subst.
    rewrite Hi, Hc. simpl.
    destruct (loosely_null v); simpl; rewrite (IH Hs'); [reflexivity|].
    rewrite <- app_assoc. reflexivity.
Qed.

Lemma array_loop_outcome cs acc :
  Forall (fun v => loosely_null v = false) acc ->
  match array_loop P cs acc with
  | Return r =>
      exists l, r = JSArray l /\ Forall (fun v => loosely_null v = false) l
  | _ => True
  end.
Proof.
  revert acc. induction cs as [|c cs IH]; intros acc Hacc; simpl.
  - eauto.
  - destruct (shouldIgnoreNode c); simpl; [now apply IH|].
    destruct (P c) as [v| |]; simpl; auto.
    destruct (loosely_null v) eqn:E; simpl; [now apply IH|].
    apply IH. apply Forall_app. split; [assumption|]. now constructor.
Qed.

End LoopFacts.

(** ** Plain objects *)

Module ObjFacts.

Lemma lookup_assign k k' v ps :
  Obj.lookup k (Obj.assign k' v ps)
  = if k' =? k then Some v else Obj.lookup k ps.
Proof.
  induction ps as [|[k0 v0] ps IH]; simpl.
  - reflexivity.
  - destruct (String.eqb_spec k0 k') as [->|Hne]; simpl.
    + destruct (k' =? k); reflexivity.
    + rewrite IH. destruct (String.eqb_spec k0 k) as [->|]; [|reflexivity].
      apply String.eqb_neq in Hne. rewrite String.eqb_sym in Hne.
      now rewrite Hne.
Qed.

Lemma lookup_app k ps qs :
  Obj.lookup k (ps ++ qs)
  = match Obj.lookup k ps with
    | Some v => Some v
    | None => Obj.lookup k qs
    end.
Proof.
  induction ps as [|[k0 v0] ps IH]; simpl; [reflexivity|].
  destruct (k0 =? k); auto.
Qed.

(** After a run of assignments a property holds the value assigned last. *)
Lemma lookup_assign_all k es ps :
  Obj.lookup k (assign_all es ps)
  = match Obj.lookup k (rev es) with
    | Some v => Some v
    | None => Obj.lookup k ps
    end.
Proof.
  revert ps. induction es as [|[k' v] es IH]; intros ps; simpl.
  - reflexivity.
  - unfold assign_all in *. simpl. rewrite IH, lookup_app, lookup_assign.
    simpl. destruct (Obj.lookup k (rev es)); [reflexivity|].
    destruct (k' =? k); reflexivity.
Qed.

Lemma keys_assign k v ps :
  map fst (Obj.assign k v ps)
  = if mem k (map fst ps) then map fst ps else map fst ps ++ [k].
Proof.
  induction ps as [|[k0 v0] ps IH]; simpl; [reflexivity|].
  rewrite (String.eqb_sym k k0).
  destruct (String.eqb_spec k0 k) as [->|Hne]; simpl; [reflexivity|].
  rewrite IH. destruct (mem k (map fst ps)); reflexivity.
Qed.

Lemma keys_assign_all es ps :
  map fst (assign_all es ps) = add_new (map fst ps) (map fst es).
Proof.
  revert ps. induction es as [|[k v] es IH]; intros ps; simpl; [reflexivity|].
  unfold assign_all, add_new in *. simpl. rewrite IH, keys_assign.
  reflexivity.
Qed.

Lemma filter_twice {A} (f g h : A -> bool) l :
  (forall x, h x = g x && f x) -> filter f (filter g l) = filter h l.
Proof.
  intros E. induction l as [|x l IH]; simpl; [reflexivity|].
  rewrite E. destruct (g x); simpl; [|assumption].
  destruct (f x); now rewrite IH.
Qed.

Lemma add_new_first_occurrences ks seen :
  add_new seen ks
  = seen ++ filter (fun k => negb (mem k seen)) (first_occurrences ks).
Proof.
  revert seen. induction ks as [|k ks IH]; intros seen; simpl.
  - now rewrite app_nil_r.
  - unfold add_new in *. simpl. rewrite IH.
    destruct (mem k seen) eqn:E; simpl.
    + f_equal. symmetry. apply filter_twice. intros x.
      destruct (String.eqb_spec x k) as [->|]; simpl; [now rewrite E|].
      reflexivity.
    + rewrite <- app_assoc. simpl. do 2 f_equal. symmetry.
      apply filter_twice. intros x. unfold mem.
      rewrite existsb_app. simpl. rewrite orb_false_r, negb_orb.
      apply andb_comm.
Qed.

Lemma first_occurrences_In k ks :
  In k (first_occurrences ks) -> In k ks.
Proof.
  revert k. induction ks as [|k0 ks IH]; intros k; simpl; [tauto|].
  intros [->|H]; [now left|]. right. apply IH.
  now apply filter_In in H.
Qed.

(** Without array indices among them, the keys come in creation order. *)
Lemma keys_creation_order o :
  Forall (fun k => Obj.is_index k = false) (map fst (properties o)) ->
  Obj.keys o = map fst (properties o).
Proof.
  unfold Obj.keys. generalize (map fst (properties o)). intros ks H.
  assert (E : filter Obj.is_index ks = []
              /\ filter (fun k => negb (Obj.is_index k)) ks = ks).
  { induction H as [|k ks Hk _ [IH1 IH2]]; simpl; [split; reflexivity|].
    rewrite Hk. simpl. rewrite IH2. now split. }
  destruct E as [-> ->]. reflexivity.
Qed.

(** Assignments to names other than [__proto__] only touch the own
    properties. *)
Lemma store_plain es o :
  prototype o = None ->
  Forall (fun e => fst e <> "__proto__") es ->
  store o es = Return (mkObject None (assign_all es (properties o))).
Proof.
  intros Ho H. revert o Ho.
  induction H as [|[k v] es Hk _ IH]; intros o Ho; simpl.
  - destruct o; simpl in *; subst; reflexivity.
  - unfold Obj.set. rewrite Ho.
    simpl in Hk. apply String.eqb_neq in Hk. rewrite Hk. simpl.
    now rewrite IH.
Qed.

End ObjFacts.

(** ** Dictionaries *)

Lemma even_step n : (n mod 2 = 0)%N -> ((n + 1) mod 2 = 1)%N.
Proof.
  intros H. rewrite N.Div0.add_mod, H. reflexivity.
Qed.

Lemma odd_step n : (n mod 2 = 1)%N -> ((n + 1) mod 2 = 0)%N.
Proof.
  intros H. rewrite N.Div0.add_mod, H. reflexivity.
Qed.

(** One key element followed by one value element: the key text becomes
    the pending key and the built value is assigned under it. *)
Lemma dict_loop_pair k v w rest key n o :
  (n mod 2 = 0)%N ->
  nodeName k = "key" -> nodeName v <> "key" ->
  shouldIgnoreNode v = false ->
  parsePlistXML v = Return w -> ToPrimitive w = Return tt ->
  dict_loop parsePlistXML (k :: v :: rest) key n o
  = (o' <- Obj.set o (key_text k) w ;;
     dict_loop parsePlistXML rest (parseKey k) (n + 1 + 1)%N o').
Proof.
  intros Hn Hk Hv Hi Hw Hp.
  cbn [dict_loop]. rewrite (named_key_not_ignored k Hk), Hn, Hk. cbn.
  rewrite Hi, (even_step n Hn). cbn.
  apply String.eqb_neq in Hv. rewrite Hv, Hw. cbn. rewrite Hp. reflexivity.
Qed.

(** A well-formed run of pairs is consumed whole, and leaves the loop at a
    key position with every entry stored. *)
Lemma dict_loop_pairs kvs ws rest key n :
  (n mod 2 = 0)%N ->
  alternating kvs -> built kvs ws ->
  Forall (fun c => shouldIgnoreNode c = false) (interleave kvs) ->
  exists key' n',
    (n' mod 2 = 0)%N /\
    forall o,
      dict_loop parsePlistXML (interleave kvs ++ rest) key n o
      = (o' <- store o (entries kvs ws) ;;
         dict_loop parsePlistXML rest key' n' o').
Proof.
  intros Hn Ha Hb. revert key n Hn Ha.
  induction Hb as [|[k v] w kvs ws [Hw Hp] _ IH]; intros key n Hn Ha Hi.
  - exists key, n. split; [assumption|reflexivity].
  - inversion Ha as [|? ? [Hk Hv] Ha']; subst. simpl in Hk, Hv.
    simpl in Hi. inversion Hi as [|? ? _ Hi']; subst.
    inversion Hi' as [|? ? Hiv Hi'']; subst.
    destruct (IH (parseKey k) (n + 1 + 1)%N) as (key' & n' & Hn' & E); auto.
    { apply odd_step. now apply even_step. }
    exists key', n'. split; [assumption|]. intros o.
    simpl interleave. simpl app.
    rewrite (dict_loop_pair k v w _ key n o); auto.
    unfold entries. simpl. fold (entries kvs ws).
    destruct (Obj.set o (key_text k) w); simpl; auto.
Qed.

Lemma dict_loop_end key n o :
  (n mod 2 = 0)%N -> dict_loop parsePlistXML [] key n o = Return (JSObject o).
Proof. intros H. simpl. now rewrite H. Qed.

Lemma entries_keys kvs ws :
  built kvs ws ->
  map fst (entries kvs ws) = map (fun kv => key_text (fst kv)) kvs.
Proof.
  intros H. unfold entries.
  induction H as [|kv w kvs ws _ _ IH]; simpl; [reflexivity|].
  now rewrite IH.
Qed.

Lemma filter_all {A} (l : list A) : filter (fun _ => true) l = l.
Proof. induction l as [|x l IH]; simpl; [reflexivity|now rewrite IH]. Qed.

Lemma not_ignored_prefix (cs pre post : list Node) :
  significant cs = pre ++ post ->
  Forall (fun c => shouldIgnoreNode c = false) pre.
Proof.
  intros E. generalize (significant_not_ignored cs). rewrite E.
  intros H. now apply Forall_app in H.
Qed.

Lemma entries_plain kvs ws :
  built kvs ws ->
  Forall (fun kv => key_text (fst kv) <> "__proto__") kvs ->
  Forall (fun e => fst e <> "__proto__") (entries kvs ws).
Proof.
  intros Hb H. apply (Forall_map fst (fun k => k <> "__proto__")).
  rewrite (entries_keys kvs ws Hb). now apply Forall_map.
Qed.

(** A well-formed run of pairs without a [__proto__] key, from the start of
    the loop: the entries are assigned to a fresh object and the loop goes
    on at a key position. *)
Lemma dict_loop_prefix cs kvs ws rest :
  significant cs = interleave kvs ++ rest ->
  alternating kvs ->
  built kvs ws ->
  Forall (fun kv => key_text (fst kv) <> "__proto__") kvs ->
  exists key n,
    (n mod 2 = 0)%N /\
    parsePlistXML (Element "dict" cs)
    = dict_loop parsePlistXML rest key n
        (mkObject None (assign_all (entries kvs ws) [])).
Proof.
  intros Hcs Ha Hb Hproto.
  destruct (dict_loop_pairs kvs ws rest None 0%N eq_refl Ha Hb
              (not_ignored_prefix cs _ _ Hcs))
    as (key & n & Hn & E).
  exists key, n. split; [assumption|].
  rewrite parse_dict, dict_loop_significant, Hcs, E.
  now rewrite (ObjFacts.store_plain _ Obj.empty eq_refl
                 (entries_plain kvs ws Hb Hproto)).
Qed.

(** C1, as the code has it: a [<dict>] whose significant children alternate
    key elements, none with the text [__proto__], and value elements, all
    built and converted without error, yields an object; under every key
    text it holds the built value of the element that follows the last key
    element with that text, and nothing under any other name; when no key
    text is an array index its keys are enumerated in the document order of
    their first occurrences. *)
Theorem dict_builds_dictionary cs kvs ws :
  significant cs = interleave kvs ->
  alternating kvs ->
  built kvs ws ->
  Forall (fun kv => key_text (fst kv) <> "__proto__") kvs ->
  exists o,
    parsePlistXML (Element "dict" cs) = Return (JSObject o)
    /\ (forall k, Obj.get o k = Obj.lookup k (rev (entries kvs ws)))
    /\ (Forall (fun kv => Obj.is_index (key_text (fst kv)) = false) kvs ->
        Obj.keys o
        = first_occurrences (map (fun kv => key_text (fst kv)) kvs)).
Proof.
  intros Hcs Ha Hb Hproto.
  rewrite <- (app_nil_r (interleave kvs)) in Hcs.
  destruct (dict_loop_prefix cs kvs ws [] Hcs Ha Hb Hproto)
    as (key & n & Hn & E).
  exists (mkObject None (assign_all (entries kvs ws) [])).
  split; [|split].
  - rewrite E. now apply dict_loop_end.
  - intros k. unfold Obj.get. simpl.
    rewrite ObjFacts.lookup_assign_all. simpl.
    destruct (Obj.lookup k (rev (entries kvs ws))); reflexivity.
  - intros Hidx.
    assert (Hk : map fst (assign_all (entries kvs ws) [])
                 = first_occurrences
                     (map (fun kv => key_text (fst kv)) kvs)).
    { rewrite ObjFacts.keys_assign_all, ObjFacts.add_new_first_occurrences.
      simpl. rewrite filter_all. now rewrite (entries_keys kvs ws Hb). }
    rewrite ObjFacts.keys_creation_order; simpl; [exact Hk|].
    rewrite Hk. apply Forall_forall. intros k Hin.
    apply ObjFacts.first_occurrences_In in Hin.
    apply in_map_iff in Hin. destruct Hin as (kv & <- & Hin).
    rewrite Forall_forall in Hidx. now apply Hidx.
Qed.

Lemma dict_builds_dictionary_witness :
  exists o,
    parsePlistXML (Element "dict" Sample.dict_children) = Return (JSObject o)
    /\ Obj.get o "b" = Some (JSString "x")
    /\ Obj.get o "a" = Some (JSBool true)
    /\ Obj.get o "c" = None
    /\ Obj.keys o = ["b"; "a"].
Proof.
  destruct (dict_builds_dictionary
              Sample.dict_children Sample.dict_pairs Sample.dict_values)
    as (o & E & Hget & Hkeys).
  - reflexivity.
  - repeat constructor; simpl; discriminate.
  - repeat constructor.
  - repeat constructor; simpl; discriminate.
  - exists o. split; [exact E|]. rewrite !Hget, Hkeys.
    + repeat split.
    + repeat constructor.
Defined.

(** C1 as stated fails where a value element does not build:
    [<dict><key>a</key><integer/></dict>] alternates a key element and a
    value element, and the reader throws instead of returning an object. *)
Lemma dict_builds_dictionary_counterexample :
  significant Sample.dict_empty_integer
  = interleave [(Sample.key "a", Sample.empty "integer")]
  /\ alternating [(Sample.key "a", Sample.empty "integer")]
  /\ parsePlistXML (Element "dict" Sample.dict_empty_integer)
     = Throw (InvariantViolation (cannot_parse "integer"))
  /\ ~ (exists o, parsePlistXML (Element "dict" Sample.dict_empty_integer)
                  = Return (JSObject o)).
Proof.
  split; [reflexivity|]. split.
  - repeat constructor; simpl; discriminate.
  - split; [reflexivity|]. intros [o H]. discriminate H.
Qed.

(** Keys that are array indices are enumerated first, in ascending order,
    whatever their order in the document. *)
Example dict_index_keys_order :
  exists o,
    parsePlistXML (Element "dict" Sample.dict_index_keys)
    = Return (JSObject o)
    /\ Obj.keys o = ["1"; "2"].
Proof. eexists. split; reflexivity. Qed.

(** A [__proto__] key creates no property; with an object for value it
    replaces the prototype of the object returned. *)
Example dict_proto_key_dropped :
  parsePlistXML (Element "dict" Sample.dict_proto_key)
  = Return (JSObject Obj.empty)
  /\ parsePlistXML
       (Element "dict" [Sample.key "__proto__"; Sample.empty "array"])
     = Return (JSObject (mkObject (Some (JSArray [])) [])).
Proof. split; reflexivity. Qed.

(** A built object with an own [toString] property cannot be converted for
    the diagnostic message of the enclosing [<dict>]. *)
Example dict_toString_key_throws :
  parsePlistXML (Element "dict" Sample.dict_toString_key) = Throw TypeError.
Proof. reflexivity. Qed.

(** C3, as the code has it: when the significant children of a [<dict>] are
    a well-formed run of pairs, none under the key [__proto__], all built
    and converted without error, followed by one more key element, the
    reader throws the missing-value error, whose message quotes the text of
    that key element. *)
Theorem dict_dangling_key cs kvs ws k :
  significant cs = interleave kvs ++ [k] ->
  alternating kvs ->
  built kvs ws ->
  Forall (fun kv => key_text (fst kv) <> "__proto__") kvs ->
  nodeName k = "key" ->
  parsePlistXML (Element "dict" cs)
  = Throw (Error (missing_value (key_text k))).
Proof.
  intros Hcs Ha Hb Hproto Hk.
  destruct (dict_loop_prefix cs kvs ws [k] Hcs Ha Hb Hproto)
    as (key' & n' & Hn' & E).
  rewrite E. cbn [dict_loop].
  rewrite (named_key_not_ignored k Hk), Hn', Hk. cbn.
  now rewrite (even_step n' Hn').
Qed.

Lemma dict_dangling_key_witness :
  parsePlistXML
    (Element "dict" (Sample.dict_children ++ [Sample.key "last"; Text " "]))
  = Throw (Error (missing_value "last")).
Proof.
  apply (dict_dangling_key
           (Sample.dict_children ++ [Sample.key "last"; Text " "])
           Sample.dict_pairs Sample.dict_values (Sample.key "last")).
  - reflexivity.
  - repeat constructor; simpl; discriminate.
  - repeat constructor.
  - repeat constructor; simpl; discriminate.
  - reflexivity.
Defined.

(** C3 as stated fails on
    [<dict><key>a</key><integer/><key>b</key></dict>]: three significant
    children ending on a dangling key, and the error thrown is that of the
    empty [<integer>], not the missing-value error. *)
Lemma dict_dangling_key_counterexample :
  N.odd (N.of_nat
           (List.length (significant Sample.dict_dangling_after_failure)))
  = true
  /\ parsePlistXML (Element "dict" Sample.dict_dangling_after_failure)
     = Throw (InvariantViolation (cannot_parse "integer"))
  /\ ~ (exists text,
           parsePlistXML (Element "dict" Sample.dict_dangling_after_failure)
           = Throw (Error (missing_value text))).
Proof.
  split; [reflexivity|]. split; [reflexivity|].
  intros [text H]. discriminate H.
Qed.



(** A key text that holds [%s] is not quoted as it is:
    [<dict><key>a</key><key>%s</key></dict>]. *)
Example dict_key_with_placeholder :
  parsePlistXML (Element "dict" [Sample.key "a"; Sample.key "%s"])
  = Throw (InvariantViolation (unexpected_key "undefined")).
Proof. reflexivity. Qed.


(** ** The entry point *)

(** The documents of the end-to-end scenarios. *)
Example scenario_string :
  parse (Element "plist" [Sample.str "hi"]) = Return (JSString "hi").
Proof. reflexivity. Qed.

Example scenario_dict :
  parse (Element "plist"
           [Element "dict" [Sample.key "a"; Sample.integer "1"]])
  = Return (JSObject (mkObject None [("a", JSNumber (Int 1))])).
Proof. reflexivity. Qed.

Example scenario_array :
  parse (Element "plist"
           [Element "array" [Sample.empty "true"; Sample.empty "false"]])
  = Return (JSArray [JSBool true; JSBool false]).
Proof. reflexivity. Qed.

Example scenario_dangling_key :
  parse (Element "plist" [Element "dict" [Sample.key "a"]])
  = Throw (Error (missing_value "a")).
Proof. reflexivity. Qed.

Example scenario_data :
  parse (Element "plist" [Element "data" [Text "  aGVs bG8=  "]])
  = Return (JSBuffer (Base64.decode "aGVsbG8=")).
Proof. reflexivity. Qed.

(** C2: for a root node named [plist], [parse] fails as the reader fails;
    otherwise the reader returns a list, and [parse] returns its only
    element when it has exactly one, the list itself when it has none or at
    least two. *)
Theorem parse_unwraps_single root :
  nodeName root = "plist" ->
  (forall r, parsePlistXML root = Return r -> exists l, r = JSArray l)
  /\ (forall l,
         parsePlistXML root = Return (JSArray l) ->
         parse root = Return (match l with
                              | [only] => only
                              | _ => JSArray l
                              end))
  /\ (forall e, parsePlistXML root = Throw e -> parse root = Throw e).
Proof.
  intros Hname.
  assert (Hlist : forall r, parsePlistXML root = Return r ->
                            exists l, r = JSArray l).
  { destruct root as [name cs| | |]; simpl in Hname; try discriminate; subst.
    intros r. rewrite parse_plist.
    generalize (plist_loop_outcome parsePlistXML cs []).
    destruct (plist_loop parsePlistXML cs []); intros H E;
      inversion E; subst; assumption. }
  unfold parse. rewrite Hname. simpl.
  split; [exact Hlist|]. split.
  - intros l E. rewrite E. simpl. destruct l as [|x [|y l]]; reflexivity.
  - intros e E. rewrite E. reflexivity.
Qed.

Lemma parse_unwraps_single_witness :
  parse (Element "plist" [Text " "; Sample.str "hi"]) = Return (JSString "hi")
  /\ parse (Element "plist" [Sample.str "a"; Sample.str "b"])
     = Return (JSArray [JSString "a"; JSString "b"])
  /\ parse (Element "plist" []) = Return (JSArray []).
Proof.
  split; [|split].
  - apply (proj1 (proj2 (parse_unwraps_single
                           (Element "plist" [Text " "; Sample.str "hi"])
                           eq_refl)) [JSString "hi"]).
    reflexivity.
  - apply (proj1 (proj2 (parse_unwraps_single
                           (Element "plist" [Sample.str "a"; Sample.str "b"])
                           eq_refl)) [JSString "a"; JSString "b"]).
    reflexivity.
  - apply (proj1 (proj2 (parse_unwraps_single (Element "plist" []) eq_refl))
             []).
    reflexivity.
Defined.

(** ** Leaf elements *)

(** C5, as the code has it: a [<key>] with children yields the value of its
    first child and nothing of the others, which is the whole text when the
    element holds one text or CDATA node; a [<key>] without children yields
    the empty string. *)
Theorem key_first_child_value :
  (forall first rest,
      parsePlistXML (Element "key" (first :: rest))
      = Return (value_of_key (nodeValue first)))
  /\ (forall text,
         parsePlistXML (Element "key" [Text text])
         = Return (JSString (string_loop [Text text] "")))
  /\ (forall text,
         parsePlistXML (Element "key" [CDATASection text])
         = Return (JSString (string_loop [CDATASection text] "")))
  /\ parsePlistXML (Element "key" []) = Return (JSString "").
Proof. repeat split. Qed.

(** C5 as stated fails on [<key>a<![CDATA[b]]></key>]: the text
    content is ["ab"], the key built is ["a"]. *)
Lemma key_first_child_value_counterexample :
  string_loop [Text "a"; CDATASection "b"] "" = "ab"
  /\ parsePlistXML (Element "key" [Text "a"; CDATASection "b"])
     = Return (JSString "a")
  /\ parsePlistXML (Element "key" [Text "a"; CDATASection "b"])
     <> Return (JSString (string_loop [Text "a"; CDATASection "b"] "")).
Proof. repeat split. discriminate. Qed.

(** C6: an empty [<string>], [<dict>], [<array>] and [<data>] yield the
    empty string, an object without properties, an empty list and a buffer
    of length zero; an empty [<integer>], [<real>] and [<date>] make the
    reader throw. *)
Theorem empty_elements :
  parsePlistXML (Element "string" []) = Return (JSString "")
  /\ parsePlistXML (Element "dict" []) = Return (JSObject Obj.empty)
  /\ Obj.keys Obj.empty = []
  /\ parsePlistXML (Element "array" []) = Return (JSArray [])
  /\ parsePlistXML (Element "data" []) = Return (JSBuffer [])
  /\ parsePlistXML (Element "integer" [])
     = Throw (InvariantViolation (cannot_parse "integer"))
  /\ parsePlistXML (Element "real" [])
     = Throw (InvariantViolation (cannot_parse "real"))
  /\ parsePlistXML (Element "date" [])
     = Throw (InvariantViolation (cannot_parse "Date")).
Proof. repeat split. Qed.

Lemma read_digits_some s n : Str.read_digits s (Some n) <> None.
Proof.
  revert n. induction s as [|c s IH]; intros n; simpl; [discriminate|].
  destruct (Str.is_digit c); [apply IH|discriminate].
Qed.

Lemma read_digits_none s :
  Str.read_digits s None = None <-> starts_with_digit s = false.
Proof.
  destruct s as [|c s]; simpl; [tauto|].
  destruct (Str.is_digit c); [|tauto].
  split; [|discriminate]. intros H. now apply read_digits_some in H.
Qed.

Lemma parseInt_NaN text :
  parseInt text = NaN
  <-> starts_with_digit (unsigned (Str.trim_start text)) = false.
Proof.
  unfold parseInt. rewrite <- read_digits_none.
  assert (E : forall (negative : bool) s,
             match Str.read_digits s None with
             | Some n => Int (if negative then (- n)%Z else n)
             | None => NaN
             end = NaN <-> Str.read_digits s None = None).
  { intros negative s. destruct (Str.read_digits s None); split;
      try discriminate; reflexivity. }
  destruct (Str.trim_start text) as [|c s]; [exact (E false "")|].
  destruct c as [[] [] [] [] [] [] [] []];
    cbn -[Str.read_digits]; first [apply (E true) | apply (E false)].
Qed.

(** C7, as the code has it: a non-empty [<integer>] never makes the reader
    throw; it yields [parseInt] of the first child's value, in base 10,
    which is [NaN] exactly when no digit follows the leading white space and
    the optional sign. *)
Theorem integer_never_throws first rest :
  parsePlistXML (Element "integer" (first :: rest))
  = Return (JSNumber (parseInt (Str.of_nullable (nodeValue first))))
  /\ (parseInt (Str.of_nullable (nodeValue first)) = NaN
      <-> starts_with_digit
            (unsigned (Str.trim_start (Str.of_nullable (nodeValue first))))
          = false).
Proof. split; [reflexivity|apply parseInt_NaN]. Qed.

(** C7 as stated fails on [<integer>abc</integer>]: the text is not
    an integer literal and the reader returns [NaN]. *)
Lemma integer_never_throws_counterexample :
  is_decimal_integer "abc" = false
  /\ parsePlistXML (Element "integer" [Text "abc"]) = Return (JSNumber NaN)
  /\ ~ (exists e, parsePlistXML (Element "integer" [Text "abc"]) = Throw e).
Proof.
  split; [reflexivity|]. split; [reflexivity|].
  intros [e H]. discriminate H.
Qed.

(** Text after the digits is dropped as well. *)
Example integer_trailing_text :
  parsePlistXML (Element "integer" [Text " -12abc"])
  = Return (JSNumber (Int (-12))).
Proof. reflexivity. Qed.

(** ** Lists *)

(** C10: the list built for an [<array>] holds, in document order, the
    value of every significant child except those that are [undefined] or
    [null]; [false], [0] and the empty string are kept. *)
Theorem array_keeps_falsy_values cs vs :
  Forall2 (fun c v => parsePlistXML c = Return v) (significant cs) vs ->
  exists l,
    parsePlistXML (Element "array" cs) = Return (JSArray l)
    /\ l = filter (fun v => negb (loosely_null v)) vs
    /\ (forall v, loosely_null v = true <-> v = JSUndefined \/ v = JSNull)
    /\ (forall v,
           In v vs ->
           v = JSBool false \/ v = JSNumber (Int 0) \/ v = JSString "" ->
           In v l).
Proof.
  intros H. eexists. split; [|split; [reflexivity|split]].
  - rewrite parse_array. apply (array_loop_built parsePlistXML cs vs []), H.
  - intros v. split.
    + destruct v; simpl; try discriminate; auto.
    + intros [->| ->]; reflexivity.
  - intros v Hin Hv. apply filter_In. split; [assumption|].
    destruct Hv as [->|[->| ->]]; reflexivity.
Qed.

Lemma array_keeps_falsy_values_witness :
  parsePlistXML (Element "array" Sample.array_falsy)
  = Return (JSArray [JSBool false; JSNumber (Int 0); JSString ""]).
Proof.
  destruct (array_keeps_falsy_values
              Sample.array_falsy Sample.array_falsy_values)
    as (l & E & -> & _).
  - repeat constructor.
  - exact E.
Defined.

(** C8, as the code has it: the list built for an [<array>] never holds
    [undefined] or [null]. *)
Theorem array_has_no_absent_element cs l :
  parsePlistXML (Element "array" cs) = Return (JSArray l) ->
  Forall (fun v => v <> JSUndefined /\ v <> JSNull) l.
Proof.
  rewrite parse_array. intros E.
  generalize (array_loop_outcome parsePlistXML cs [] (Forall_nil _)).
  rewrite E. intros (l' & El & H). inversion El; subst l'.
  eapply Forall_impl; [|exact H]. intros v Hv.
  split; intros ->; discriminate.
Qed.

Lemma array_has_no_absent_element_witness :
  Forall (fun v => v <> JSUndefined /\ v <> JSNull)
         [JSBool false; JSNumber (Int 0); JSString ""].
Proof.
  apply (array_has_no_absent_element Sample.array_falsy).
  reflexivity.
Defined.

(** C8 as stated fails on [<dict><key>a</key><foo/></dict>]: the
    reader succeeds and the slot of [a] holds [undefined]. *)
Lemma array_has_no_absent_element_counterexample :
  parsePlistXML (Element "dict" Sample.dict_unknown_value)
  = Return (JSObject (mkObject None [("a", JSUndefined)]))
  /\ no_absent_member (JSObject (mkObject None [("a", JSUndefined)])) = false.
Proof. split; reflexivity. Qed.

(** The list built for a [plist] node keeps the absent results too. *)
Example plist_keeps_absent :
  parsePlistXML (Element "plist" [Sample.empty "foo"; Sample.empty "true"])
  = Return (JSArray [JSUndefined; JSBool true])
  /\ parse (Element "plist" [Sample.empty "foo"]) = Return JSUndefined.
Proof. split; reflexivity. Qed.

(** ** Binary data *)

Lemma strip_whitespace_append a b :
  Str.strip_whitespace (a +++ b)
  = Str.strip_whitespace a +++ Str.strip_whitespace b.
Proof.
  induction a as [|x a IH]; simpl; [reflexivity|].
  destruct (Str.is_whitespace x); simpl; now rewrite IH.
Qed.

(** Stripping each text child and concatenating is stripping the
    concatenation. *)
Lemma data_loop_text cs res :
  data_loop cs res = res +++ Str.strip_whitespace (text_values cs).
Proof.
  revert res. induction cs as [|c cs IH]; intros res; simpl.
  - induction res as [|x res IHr]; simpl; [reflexivity|now rewrite <- IHr].
  - destruct c; try apply IH.
    rewrite IH, strip_whitespace_append, append_assoc. reflexivity.
Qed.

Lemma parse_data cs :
  parsePlistXML (Element "data" cs)
  = Return (JSBuffer (Base64.decode (Str.strip_whitespace (text_values cs)))).
Proof.
  destruct cs as [|c cs]; [reflexivity|].
  change (parsePlistXML (Element "data" (c :: cs)))
    with (Return (A := value)
            (JSBuffer (Base64.decode (data_loop (c :: cs) "")))).
  now rewrite data_loop_text.
Qed.

Module Base64Facts.

Import Base64.

Lemma list_ind3 {A} (P : list A -> Prop) :
  P [] ->
  (forall a, P [a]) ->
  (forall a b, P [a; b]) ->
  (forall a b c rest, P rest -> P (a :: b :: c :: rest)) ->
  forall l, P l.
Proof.
  intros H0 H1 H2 H3.
  fix rec 1. intros [|a [|b [|c rest]]].
  - exact H0.
  - apply H1.
  - apply H2.
  - apply H3, rec.
Qed.

(** The decoder's table inverts the encoder's alphabet. *)
Lemma unbase64_char x :
  (x < 64)%N ->
  unbase64 (char_of_sextet x) = Some x
  /\ (char_of_sextet x =? "=")%char = false.
Proof.
  intros H. destruct x as [|p]; [split; reflexivity|].
  do 6 (destruct p as [p|p|]; try (split; reflexivity)); lia.
Qed.

Lemma sextets_char x s :
  (x < 64)%N -> sextets (String (char_of_sextet x) s) = x :: sextets s.
Proof.
  intros H. destruct (unbase64_char x H) as [E1 E2].
  simpl. now rewrite E2, E1.
Qed.

Lemma to_byte_to_N b : to_byte (Byte.to_N b) = b.
Proof.
  unfold to_byte. rewrite N.mod_small.
  - now rewrite Byte.of_to_N.
  - generalize (Byte.to_N_bounded b). lia.
Qed.

Lemma sextet1 a : (a < 256)%N -> (a / 4 < 64)%N.
Proof. intros. zify; Z.to_euclidean_division_equations; lia. Qed.

Lemma sextet2 a b : (b < 256)%N -> ((a mod 4) * 16 + b / 16 < 64)%N.
Proof. intros. zify; Z.to_euclidean_division_equations; lia. Qed.

Lemma sextet3 b c : (c < 256)%N -> ((b mod 16) * 4 + c / 64 < 64)%N.
Proof. intros. zify; Z.to_euclidean_division_equations; lia. Qed.

Lemma sextet4 c : (c mod 64 < 64)%N.
Proof. zify; Z.to_euclidean_division_equations; lia. Qed.

Lemma first_byte a b :
  (b < 256)%N ->
  (a / 4 * 4 + ((a mod 4) * 16 + b / 16) / 16 = a)%N.
Proof. intros. zify; Z.to_euclidean_division_equations; lia. Qed.

Lemma second_byte a b c :
  (b < 256)%N -> (c < 256)%N ->
  ((((a mod 4) * 16 + b / 16) mod 16) * 16
   + ((b mod 16) * 4 + c / 64) / 4 = b)%N.
Proof. intros. zify; Z.to_euclidean_division_equations; lia. Qed.

Lemma third_byte b c :
  (c < 256)%N ->
  ((((b mod 16) * 4 + c / 64) mod 4) * 64 + c mod 64 = c)%N.
Proof. intros. zify; Z.to_euclidean_division_equations; lia. Qed.

Lemma byte_bound (b : byte) : (Byte.to_N b < 256)%N.
Proof. generalize (Byte.to_N_bounded b). lia. Qed.

Lemma zero_bound : (Byte.to_N x00 < 256)%N.
Proof. reflexivity. Qed.

(** Decoding inverts encoding. *)
Lemma decode_encode bs : decode (encode bs) = bs.
Proof.
  pose proof byte_bound as Hb. pose proof zero_bound as H0.
  unfold decode. induction bs as [|a|a b|a b c rest IH] using list_ind3.
  - reflexivity.
  - cbn [encode]. unfold c1, c2.
    rewrite !sextets_char by auto using sextet1, sextet2.
    cbn [sextets Ascii.eqb Bool.eqb]. cbn [bytes_of_sextets]. unfold byte1.
    rewrite first_byte by auto.
    now rewrite to_byte_to_N.
  - cbn [encode]. unfold c1, c2, c3.
    rewrite !sextets_char by auto using sextet1, sextet2, sextet3.
    cbn [sextets Ascii.eqb Bool.eqb]. cbn [bytes_of_sextets].
    unfold byte1, byte2.
    rewrite first_byte, second_byte by auto.
    now rewrite !to_byte_to_N.
  - cbn [encode]. unfold c1, c2, c3, c4.
    rewrite !sextets_char
      by auto using sextet1, sextet2, sextet3, sextet4.
    cbn [bytes_of_sextets]. rewrite IH.
    unfold byte1, byte2, byte3.
    rewrite first_byte, second_byte, third_byte by auto.
    now rewrite !to_byte_to_N.
Qed.

End Base64Facts.

(** C9, as the code has it: a [<data>] yields the forgiving base64 decoding
    of its text children's values, concatenated, without their white space;
    when that text is the base64 encoding of some bytes, the buffer holds
    those bytes and encoding it gives the text back. *)
Theorem data_decodes_base64 cs :
  exists d,
    parsePlistXML (Element "data" cs) = Return (JSBuffer d)
    /\ d = Base64.decode (Str.strip_whitespace (text_values cs))
    /\ (forall bs,
           Str.strip_whitespace (text_values cs) = Base64.encode bs ->
           d = bs
           /\ Base64.encode d = Str.strip_whitespace (text_values cs)).
Proof.
  eexists. split; [apply parse_data|]. split; [reflexivity|].
  intros bs E. rewrite E, Base64Facts.decode_encode. now split.
Qed.

Lemma data_decodes_base64_witness :
  parsePlistXML (Element "data" [Text "  aGVs bG8=  "])
  = Return (JSBuffer Sample.hello)
  /\ Base64.encode Sample.hello = "aGVsbG8=".
Proof.
  destruct (data_decodes_base64 [Text "  aGVs bG8=  "]) as (d & E & _ & H).
  destruct (H Sample.hello eq_refl) as [-> _].
  split; [exact E|reflexivity].
Defined.

(** C9 as stated fails on [<data>aGVsbG8</data>], whose text lacks
    the padding: the buffer holds the five bytes of [hello], and encoding
    them gives [aGVsbG8=], which is not the text of the element. *)
Lemma data_decodes_base64_counterexample :
  parsePlistXML (Element "data" [Text "aGVsbG8"])
  = Return (JSBuffer Sample.hello)
  /\ Str.strip_whitespace (text_values [Text "aGVsbG8"]) = "aGVsbG8"
  /\ Base64.encode Sample.hello <> "aGVsbG8".
Proof. repeat split. discriminate. Qed.

(** * Further properties of the reader *)

(** ** Induction over trees and values *)

Lemma Node_tree_ind (P : Node -> Prop) :
  (forall name cs, Forall P cs -> P (Element name cs)) ->
  (forall v, P (Text v)) ->
  (forall v, P (CDATASection v)) ->
  (forall v, P (Comment v)) ->
  forall node, P node.
Proof.
  intros HE HT HC HM. fix rec 1.
  intros [name cs|v|v|v]; [|apply HT|apply HC|apply HM].
  apply HE. revert cs. fix rec_list 1. intros [|c cs]; constructor.
  - apply rec.
  - apply rec_list.
Qed.

Lemma value_tree_ind (P : value -> Prop) :
  (forall elems, Forall P elems -> P (JSArray elems)) ->
  (forall v, (forall elems, v <> JSArray elems) -> P v) ->
  forall v, P v.
Proof.
  intros HA HO. fix rec 1. intros v.
  destruct v as [| | | | | | |elems|o];
    try (apply HO; intros elems; discriminate).
  apply HA. revert elems. fix rec_list 1. intros [|e elems]; constructor.
  - apply rec.
  - apply rec_list.
Qed.

(** The conversion to a string fails with a [TypeError] only. *)
Lemma ToPrimitive_throws v e : ToPrimitive v = Throw e -> e = TypeError.
Proof.
  revert e. induction v as [elems IH|v Hv] using value_tree_ind; intros e.
  - simpl. induction IH as [|x elems Hx _ IHl]; simpl; [discriminate|].
    destruct (loosely_null x); [exact IHl|].
    destruct (ToPrimitive x) as [[]|e'|] eqn:E; simpl.
    + exact IHl.
    + intros H. inversion H; subst. now apply Hx.
    + discriminate.
  - destruct v; simpl; try discriminate.
    + exfalso. now apply (Hv elems).
    + destruct (prototype o); [discriminate|].
      destruct (Obj.get o "toString"); [|discriminate].
      intros H. now inversion H.
Qed.

Lemma set_never_throws o k v e : Obj.set o k v <> Throw e.
Proof.
  unfold Obj.set. destruct (prototype o); [discriminate|].
  destruct (k =? "__proto__"); [|discriminate].
  destruct (is_object v || is_null v); discriminate.
Qed.

(** ** Lists, again *)

Section LoopResults.

Variable P : Node -> completion value.

(** A loop that returns has built every significant child. *)
Lemma plist_loop_returns cs acc r :
  plist_loop P cs acc = Return r ->
  exists vs,
    Forall2 (fun c v => P c = Return v) (significant cs) vs
    /\ r = JSArray (acc ++ vs).
Proof.
  revert acc. induction cs as [|c cs IH]; intros acc.
  - simpl. intros H. inversion H. exists []. split; [constructor|].
    now rewrite app_nil_r.
  - rewrite significant_cons. cbn [plist_loop].
    destruct (shouldIgnoreNode c); simpl.
    + apply IH.
    + destruct (P c) as [v| |] eqn:E; simpl; try discriminate.
      intros H. destruct (IH _ H) as (vs & Hvs & ->).
      exists (v :: vs). split; [now constructor|].
      now rewrite <- app_assoc.
Qed.

Lemma array_loop_returns cs acc r :
  array_loop P cs acc = Return r ->
  exists vs,
    Forall2 (fun c v => P c = Return v) (significant cs) vs
    /\ r = JSArray (acc ++ filter (fun v => negb (loosely_null v)) vs).
Proof.
  revert acc. induction cs as [|c cs IH]; intros acc.
  - simpl. intros H. inversion H. exists []. split; [constructor|].
    now rewrite app_nil_r.
  - rewrite significant_cons. cbn [array_loop].
    destruct (shouldIgnoreNode c); simpl.
    + apply IH.
    + destruct (P c) as [v| |] eqn:E; simpl; try discriminate.
      destruct (loosely_null v) eqn:Ev; simpl; intros H;
        destruct (IH _ H) as (vs & Hvs & ->); exists (v :: vs);
        (split; [now constructor|]); simpl; rewrite Ev; simpl;
        [reflexivity|now rewrite <- app_assoc].
Qed.

(** The first child that throws ends the loop with its exception. *)
Lemma plist_loop_throws cs pre c post vs acc e :
  significant cs = pre ++ c :: post ->
  Forall2 (fun c v => P c = Return v) pre vs ->
  P c = Throw e ->
  plist_loop P cs acc = Throw e.
Proof.
  intros Hcs Hpre Hc. rewrite plist_loop_significant.
  generalize (significant_not_ignored cs). rewrite Hcs. clear Hcs.
  revert acc.
  induction Hpre as [|x v pre vs Hx _ IH]; intros acc Hs; simpl in *.
  - inversion Hs as [|? ? Hi _]; subst. now rewrite Hi, Hc.
  - inversion Hs as [|? ? Hi Hs']; subst. rewrite Hi, Hx. simpl.
    now apply IH.
Qed.

Lemma array_loop_throws cs pre c post vs acc e :
  significant cs = pre ++ c :: post ->
  Forall2 (fun c v => P c = Return v) pre vs ->
  P c = Throw e ->
  array_loop P cs acc = Throw e.
Proof.
  intros Hcs Hpre Hc. rewrite array_loop_significant.
  generalize (significant_not_ignored cs). rewrite Hcs. clear Hcs.
  revert acc.
  induction Hpre as [|x v pre vs Hx _ IH]; intros acc Hs; simpl in *.
  - inversion Hs as [|? ? Hi _]; subst. now rewrite Hi, Hc.
  - inversion Hs as [|? ? Hi Hs']; subst. rewrite Hi, Hx. simpl.
    destruct (loosely_null v); simpl; now apply IH.
Qed.

End LoopResults.

Lemma filter_keeps_all {A} (f : A -> bool) l :
  Forall (fun x => f x = true) l -> filter f l = l.
Proof.
  induction 1 as [|x l Hx _ IH]; simpl; [reflexivity|].
  now rewrite Hx, IH.
Qed.

Lemma filter_length_le {A} (f : A -> bool) l :
  List.length (filter f l) <= List.length l.
Proof.
  induction l as [|x l IH]; simpl; [lia|].
  destruct (f x); simpl; lia.
Qed.

(** X2: text, comments and CDATA between the children of a [plist],
    [<dict>] or [<array>] change nothing: two child lists with the same
    significant children give the same outcome. *)
Theorem ignored_children_are_transparent cs cs' :
  significant cs = significant cs' ->
  parsePlistXML (Element "plist" cs) = parsePlistXML (Element "plist" cs')
  /\ parsePlistXML (Element "dict" cs) = parsePlistXML (Element "dict" cs')
  /\ parsePlistXML (Element "array" cs) = parsePlistXML (Element "array" cs').
Proof.
  intros H. split; [|split].
  - rewrite !parse_plist, plist_loop_significant, H.
    now rewrite <- plist_loop_significant.
  - rewrite !parse_dict, dict_loop_significant, H.
    now rewrite <- dict_loop_significant.
  - rewrite !parse_array, array_loop_significant, H.
    now rewrite <- array_loop_significant.
Qed.

Lemma ignored_children_are_transparent_witness :
  parsePlistXML
    (Element "array" [Text " "; Sample.str "a"; Comment "c"; Sample.str "b"])
  = parsePlistXML (Element "array" [Sample.str "a"; Sample.str "b"]).
Proof.
  apply (ignored_children_are_transparent
           [Text " "; Sample.str "a"; Comment "c"; Sample.str "b"]
           [Sample.str "a"; Sample.str "b"]).
  reflexivity.
Defined.

(** X3: a [plist] node returns exactly when every significant child is
    built, and then returns the list of all the results in document order,
    [undefined] included: the list is as long as the significant children
    are many. *)
Theorem plist_collects_every_child cs r :
  parsePlistXML (Element "plist" cs) = Return r
  <-> exists vs,
        Forall2 (fun c v => parsePlistXML c = Return v) (significant cs) vs
        /\ r = JSArray vs
        /\ List.length vs = List.length (significant cs).
Proof.
  rewrite parse_plist. split.
  - intros H. destruct (plist_loop_returns _ _ _ _ H) as (vs & Hvs & ->).
    exists vs. split; [assumption|]. split; [reflexivity|].
    symmetry. eapply Forall2_length, Hvs.
  - intros (vs & Hvs & -> & _).
    now rewrite (plist_loop_built parsePlistXML cs vs []).
Qed.

(** X4: an [<array>] that returns has built every significant child; its
    list holds the results that are neither [undefined] nor [null], so it is
    never longer than the significant children are many. *)
Theorem array_returns_only_when_children_build cs r :
  parsePlistXML (Element "array" cs) = Return r ->
  exists vs,
    Forall2 (fun c v => parsePlistXML c = Return v) (significant cs) vs
    /\ r = JSArray (filter (fun v => negb (loosely_null v)) vs)
    /\ List.length (filter (fun v => negb (loosely_null v)) vs)
       <= List.length (significant cs).
Proof.
  rewrite parse_array. intros H.
  destruct (array_loop_returns _ _ _ _ H) as (vs & Hvs & ->).
  exists vs. split; [assumption|]. split; [reflexivity|].
  rewrite (Forall2_length Hvs). apply filter_length_le.
Qed.

Lemma array_returns_only_when_children_build_witness :
  exists vs,
    Forall2 (fun c v => parsePlistXML c = Return v)
            (significant Sample.array_falsy) vs
    /\ JSArray [JSBool false; JSNumber (Int 0); JSString ""]
       = JSArray (filter (fun v => negb (loosely_null v)) vs)
    /\ List.length (filter (fun v => negb (loosely_null v)) vs)
       <= List.length (significant Sample.array_falsy).
Proof.
  apply (array_returns_only_when_children_build Sample.array_falsy).
  reflexivity.
Defined.

(** X5: a [plist] or [<array>] whose significant children build up to one
    that throws, throws that exception: no partial list is returned. *)
Theorem container_failure_propagates cs pre c post vs e :
  significant cs = pre ++ c :: post ->
  Forall2 (fun c v => parsePlistXML c = Return v) pre vs ->
  parsePlistXML c = Throw e ->
  parsePlistXML (Element "plist" cs) = Throw e
  /\ parsePlistXML (Element "array" cs) = Throw e.
Proof.
  intros Hcs Hpre Hc. rewrite parse_plist, parse_array. split.
  - eapply plist_loop_throws; eassumption.
  - eapply array_loop_throws; eassumption.
Qed.

Lemma container_failure_propagates_witness :
  parsePlistXML
    (Element "plist"
       [Sample.str "a"; Text " "; Sample.empty "real"; Sample.str "b"])
  = Throw (InvariantViolation (cannot_parse "real"))
  /\ parsePlistXML
       (Element "array"
          [Sample.str "a"; Text " "; Sample.empty "real"; Sample.str "b"])
     = Throw (InvariantViolation (cannot_parse "real")).
Proof.
  apply (container_failure_propagates
           [Sample.str "a"; Text " "; Sample.empty "real"; Sample.str "b"]
           [Sample.str "a"] (Sample.empty "real") [Sample.str "b"]
           [JSString "a"]).
  - reflexivity.
  - repeat constructor.
  - reflexivity.
Defined.

Lemma parse_single cs c :
  significant cs = [c] ->
  parse (Element "plist" cs) = parsePlistXML c.
Proof.
  intros H. unfold parse.
  change (invariant _ _) with (@Return unit tt). cbn [bind].
  rewrite parse_plist, plist_loop_significant, H.
  generalize (significant_not_ignored cs). rewrite H.
  intros Hs. inversion Hs as [|? ? Hi _]; subst.
  simpl. rewrite Hi. simpl.
  destruct (parsePlistXML c); reflexivity.
Qed.

(** X6: a document whose root has no significant child parses to the empty
    list, not to [undefined]; with one significant child under the root,
    [parse] is the reader on that child, whether it returns or throws. *)
Theorem parse_of_short_documents cs :
  (significant cs = [] -> parse (Element "plist" cs) = Return (JSArray []))
  /\ (forall c,
         significant cs = [c] ->
         parse (Element "plist" cs) = parsePlistXML c).
Proof.
  split.
  - intros H. unfold parse. change (invariant _ _) with (@Return unit tt).
    cbn [bind]. rewrite parse_plist, plist_loop_significant, H. reflexivity.
  - intros c. apply parse_single.
Qed.

Lemma parse_of_short_documents_witness :
  parse (Element "plist" [Text " "; Comment "nothing"]) = Return (JSArray [])
  /\ parse (Element "plist" [Text " "; Element "dict" [Sample.key "a"]])
     = parsePlistXML (Element "dict" [Sample.key "a"]).
Proof.
  split.
  - apply (proj1 (parse_of_short_documents [Text " "; Comment "nothing"])).
    reflexivity.
  - apply (proj2 (parse_of_short_documents
                    [Text " "; Element "dict" [Sample.key "a"]])).
    reflexivity.
Defined.

(** X7: [parse] cannot tell a sequence of top-level values from an array of
    them: when the children all build to values that are neither
    [undefined] nor [null], and are not exactly one, putting them in an
    [<array>] under the root gives the same result. *)
Theorem parse_conflates_sequence_and_array cs vs :
  Forall2 (fun c v => parsePlistXML c = Return v) (significant cs) vs ->
  Forall (fun v => negb (loosely_null v) = true) vs ->
  List.length vs <> 1 ->
  parse (Element "plist" cs) = Return (JSArray vs)
  /\ parse (Element "plist" [Element "array" cs]) = Return (JSArray vs).
Proof.
  intros Hvs Hnn Hlen.
  assert (Hp : parsePlistXML (Element "plist" cs) = Return (JSArray vs)).
  { rewrite parse_plist.
    now rewrite (plist_loop_built parsePlistXML cs vs [] Hvs). }
  assert (Ha : parsePlistXML (Element "array" cs) = Return (JSArray vs)).
  { rewrite parse_array, (array_loop_built parsePlistXML cs vs [] Hvs).
    simpl. now rewrite filter_keeps_all by exact Hnn. }
  split.
  - unfold parse. change (invariant _ _) with (@Return unit tt).
    cbn [bind]. rewrite Hp. simpl.
    destruct vs as [|x [|y vs]]; [reflexivity| |reflexivity].
    exfalso. apply Hlen. reflexivity.
  - rewrite (parse_single [Element "array" cs] (Element "array" cs)
               eq_refl).
    exact Ha.
Qed.

Lemma parse_conflates_sequence_and_array_witness :
  parse (Element "plist" [Sample.str "a"; Sample.str "b"])
  = Return (JSArray [JSString "a"; JSString "b"])
  /\ parse (Element "plist"
              [Element "array" [Sample.str "a"; Sample.str "b"]])
     = Return (JSArray [JSString "a"; JSString "b"]).
Proof.
  apply (parse_conflates_sequence_and_array
           [Sample.str "a"; Sample.str "b"] [JSString "a"; JSString "b"]).
  - repeat constructor.
  - repeat constructor.
  - simpl. discriminate.
Defined.

(** ** Leaf elements, again *)

Lemma append_nil_r (s : string) : s +++ "" = s.
Proof. induction s as [|c s IH]; simpl; [reflexivity|now rewrite IH]. Qed.

Lemma string_loop_character_data cs res :
  string_loop cs res = res +++ character_data cs.
Proof.
  revert res. induction cs as [|c cs IH]; intros res; simpl.
  - now rewrite append_nil_r.
  - destruct c; try apply IH; now rewrite IH, append_assoc.
Qed.

Lemma character_data_app a b :
  character_data (a ++ b) = character_data a +++ character_data b.
Proof.
  induction a as [|c a IH]; simpl; [reflexivity|].
  destruct c; try exact IH; now rewrite IH, append_assoc.
Qed.

Lemma parse_string cs :
  parsePlistXML (Element "string" cs) = Return (JSString (character_data cs)).
Proof.
  destruct cs as [|c cs]; [reflexivity|].
  change (parsePlistXML (Element "string" (c :: cs)))
    with (Return (A := value) (JSString (string_loop (c :: cs) ""))).
  now rewrite string_loop_character_data.
Qed.

(** X8: a [<string>] never fails; its text is the values of its text and
    CDATA children in document order, the other children adding nothing, so
    the text for two child lists put end to end is the two texts put end to
    end. *)
Theorem string_concatenates_character_data a b :
  parsePlistXML (Element "string" a) = Return (JSString (character_data a))
  /\ forall sa sb,
       parsePlistXML (Element "string" a) = Return (JSString sa) ->
       parsePlistXML (Element "string" b) = Return (JSString sb) ->
       parsePlistXML (Element "string" (a ++ b))
       = Return (JSString (sa +++ sb)).
Proof.
  split; [apply parse_string|].
  intros sa sb. rewrite !parse_string, character_data_app.
  intros Ha Hb. inversion Ha. inversion Hb. reflexivity.
Qed.

Lemma string_concatenates_character_data_witness :
  parsePlistXML
    (Element "string"
       ([Text "a"; Comment "x"] ++ [CDATASection "b"; Sample.empty "i"]))
  = Return (JSString ("a" +++ "b")).
Proof.
  apply (proj2 (string_concatenates_character_data
                  [Text "a"; Comment "x"]
                  [CDATASection "b"; Sample.empty "i"])); reflexivity.
Defined.

Lemma real_loop_text cs res : real_loop cs res = res +++ text_values cs.
Proof.
  revert res. induction cs as [|c cs IH]; intros res; simpl.
  - now rewrite append_nil_r.
  - destruct c; try apply IH. now rewrite IH, append_assoc.
Qed.

(** X9: a [<real>] with children never fails; the text handed to
    [parseFloat] is made of the values of its text children only, so CDATA
    children, which a [<string>] keeps, are left out. *)
Theorem real_reads_text_children_only cs :
  cs <> [] ->
  parsePlistXML (Element "real" cs)
  = Return (JSNumber (parseFloat (text_values cs))).
Proof.
  destruct cs as [|c cs]; [congruence|]. intros _.
  change (parsePlistXML (Element "real" (c :: cs)))
    with (Return (A := value)
            (JSNumber (parseFloat (real_loop (c :: cs) "")))).
  now rewrite real_loop_text.
Qed.

Lemma real_reads_text_children_only_witness :
  parsePlistXML (Element "real" [Text "1"; CDATASection "9"; Text ".5"])
  = Return (JSNumber (parseFloat "1.5")).
Proof.
  apply (real_reads_text_children_only
           [Text "1"; CDATASection "9"; Text ".5"]).
  discriminate.
Defined.

(** X10: the bytes of a [<data>] depend on its text children's characters
    other than white space, and on nothing else: white space, the way the
    text is cut into nodes, and children of other kinds do not matter. *)
Theorem data_ignores_layout cs cs' :
  Str.strip_whitespace (text_values cs)
  = Str.strip_whitespace (text_values cs') ->
  parsePlistXML (Element "data" cs) = parsePlistXML (Element "data" cs').
Proof. intros H. now rewrite !parse_data, H. Qed.

Lemma data_ignores_layout_witness :
  parsePlistXML
    (Element "data" [Text " aGVs"; Comment "c"; CDATASection "x"; Text "bG8= "])
  = parsePlistXML (Element "data" [Text "aGVsbG8="]).
Proof.
  apply (data_ignores_layout
           [Text " aGVs"; Comment "c"; CDATASection "x"; Text "bG8= "]
           [Text "aGVsbG8="]).
  reflexivity.
Defined.

Lemma parse_other name cs :
  name <> "plist" -> name <> "dict" -> name <> "array" ->
  parsePlistXML (Element name cs) = parse_leaf name cs.
Proof.
  intros H1 H2 H3. apply String.eqb_neq in H1, H2, H3.
  cbn [parsePlistXML]. now rewrite H1, H2, H3.
Qed.

Lemma dict_loop_outcome P cs key n o :
  match dict_loop P cs key n o with
  | Return r => exists o', r = JSObject o'
  | _ => True
  end.
Proof.
  revert key n o. induction cs as [|c cs IH]; intros key n o; simpl.
  - destruct (n mod 2 =? 1)%N; eauto.
  - destruct (shouldIgnoreNode c); [apply IH|].
    destruct (n mod 2 =? 0)%N.
    + destruct (nodeName c =? "key"); simpl; [apply IH|exact I].
    + destruct (nodeName c =? "key"); [exact I|].
      destruct (P c) as [v| |]; simpl; [|exact I|exact I].
      destruct (ToPrimitive v); simpl; [|exact I|exact I].
      destruct (Obj.set o (Str.of_nullable key) v); simpl;
        [apply IH|exact I|exact I].
Qed.

(** X11: an element builds to [undefined] exactly when its name is none of
    the eleven the dispatch knows; its children are then not looked at. *)
Theorem undefined_iff_unrecognized name cs :
  parsePlistXML (Element name cs) = Return JSUndefined
  <-> ~ In name recognized_names.
Proof.
  split.
  - intros H Hin. simpl in Hin.
    destruct Hin as [<-|[<-|[<-|Hin]]].
    + rewrite parse_plist in H.
      generalize (plist_loop_outcome parsePlistXML cs []). rewrite H.
      intros [l Hl]. discriminate.
    + rewrite parse_dict in H.
      generalize (dict_loop_outcome parsePlistXML cs None 0%N Obj.empty).
      rewrite H. intros [o Ho]. discriminate.
    + rewrite parse_array in H.
      generalize (array_loop_outcome parsePlistXML cs [] (Forall_nil _)).
      rewrite H. intros (l & Hl & _). discriminate.
    + destruct Hin as [<-|[<-|[<-|[<-|[<-|[<-|[<-|[<-|[]]]]]]]]];
        destruct cs as [|c cs]; cbn in H; try discriminate H.
      destruct (nodeValue c); discriminate H.
  - intros Hn.
    assert (N : forall x, In x recognized_names -> name <> x).
    { intros x Hx ->. now apply Hn. }
    rewrite parse_other by (apply N; simpl; tauto).
    unfold parse_leaf. destruct (name =? "#text"); [reflexivity|].
    repeat match goal with
           | |- context [name =? ?x] =>
               rewrite (proj2 (String.eqb_neq name x))
                 by (apply N; simpl; tauto)
           end.
    reflexivity.
Qed.

(** ** Dictionaries, again *)

Lemma list_ind2 {A} (P : list A -> Prop) :
  P [] ->
  (forall a, P [a]) ->
  (forall a b l, P l -> P (a :: b :: l)) ->
  forall l, P l.
Proof.
  intros H0 H1 H2. fix rec 1. intros [|a [|b l]].
  - exact H0.
  - apply H1.
  - apply H2, rec.
Qed.

Lemma not_ignored_suffix (cs pre post : list Node) :
  significant cs = pre ++ post ->
  Forall (fun c => shouldIgnoreNode c = false) post.
Proof.
  intros E. generalize (significant_not_ignored cs). rewrite E.
  intros H. now apply Forall_app in H.
Qed.

(** A loop that returns has gone through pairs of a key element and a value
    element, each value built, converted and assigned. *)
Lemma dict_loop_returns cs :
  Forall (fun c => shouldIgnoreNode c = false) cs ->
  forall key n o r,
    (n mod 2 = 0)%N ->
    dict_loop parsePlistXML cs key n o = Return r ->
    exists kvs ws o',
      cs = interleave kvs
      /\ alternating kvs
      /\ built kvs ws
      /\ store o (entries kvs ws) = Return o'
      /\ r = JSObject o'.
Proof.
  induction cs as [|a|a b l IH] using list_ind2; intros Hs key n o r Hn.
  - simpl. rewrite Hn. simpl. intros H. inversion H.
    exists [], [], o. repeat split; constructor.
  - inversion Hs as [|? ? Hia _]; subst.
    cbn [dict_loop]. rewrite Hia, Hn. cbn.
    destruct (nodeName a =? "key"); cbn; [|discriminate].
    rewrite (even_step n Hn). discriminate.
  - inversion Hs as [|? ? Hia Hs']; subst.
    inversion Hs' as [|? ? Hib Hl]; subst.
    cbn [dict_loop]. rewrite Hia, Hn. cbn.
    destruct (nodeName a =? "key") eqn:Ea; cbn; [|discriminate].
    rewrite Hib, (even_step n Hn). cbn.
    destruct (nodeName b =? "key") eqn:Eb; [discriminate|].
    destruct (parsePlistXML b) as [w| |] eqn:Ew; cbn; try discriminate.
    destruct (ToPrimitive w) as [[]| |] eqn:Ep; cbn; try discriminate.
    destruct (Obj.set o (Str.of_nullable (parseKey a)) w) as [o1| |] eqn:Es;
      cbn; try discriminate.
    intros H.
    destruct (IH Hl (parseKey a) (n + 1 + 1)%N o1 r) as
      (kvs & ws & o' & -> & Ha & Hb & Hst & ->); auto.
    { apply odd_step. now apply even_step. }
    exists ((a, b) :: kvs), (w :: ws), o'. split; [reflexivity|].
    split.
    { constructor; [|assumption]. simpl. split.
      - now apply String.eqb_eq.
      - now apply String.eqb_neq. }
    split; [constructor; [split|]; assumption|].
    split; [|reflexivity].
    unfold entries. simpl. fold (entries kvs ws).
    unfold key_text. now rewrite Es.
Qed.

(** X12: a [<dict>] that returns has an even number of significant
    children, alternating key elements and other elements; every value was
    built and converted, and the object returned is the one the assignments
    of the values under the key texts produce, in document order. *)
Theorem dict_returns_only_when_well_formed cs r :
  parsePlistXML (Element "dict" cs) = Return r ->
  exists kvs ws o,
    significant cs = interleave kvs
    /\ List.length (significant cs) = 2 * List.length kvs
    /\ alternating kvs
    /\ built kvs ws
    /\ store Obj.empty (entries kvs ws) = Return o
    /\ r = JSObject o.
Proof.
  rewrite parse_dict, dict_loop_significant. intros H.
  destruct (dict_loop_returns _ (significant_not_ignored cs)
              None 0%N Obj.empty r eq_refl H)
    as (kvs & ws & o & E & Ha & Hb & Hs & ->).
  exists kvs, ws, o. repeat split; try assumption.
  rewrite E. clear. induction kvs as [|kv kvs IH]; simpl; [reflexivity|].
  rewrite IH. lia.
Qed.

Lemma dict_returns_only_when_well_formed_witness :
  exists kvs ws o,
    significant Sample.dict_children = interleave kvs
    /\ List.length (significant Sample.dict_children) = 2 * List.length kvs
    /\ alternating kvs
    /\ built kvs ws
    /\ store Obj.empty (entries kvs ws) = Return o
    /\ JSObject (mkObject None [("b", JSString "x"); ("a", JSBool true)])
       = JSObject o.
Proof.
  apply (dict_returns_only_when_well_formed Sample.dict_children).
  reflexivity.
Defined.

(** X13: after a well-formed run of pairs, a significant child that is not
    named [key] where a key is due makes the [<dict>] throw the missing-key
    violation, whatever follows. *)
Theorem dict_missing_key cs kvs ws c rest :
  significant cs = interleave kvs ++ c :: rest ->
  alternating kvs ->
  built kvs ws ->
  Forall (fun kv => key_text (fst kv) <> "__proto__") kvs ->
  nodeName c <> "key" ->
  parsePlistXML (Element "dict" cs) = Throw (InvariantViolation missing_key).
Proof.
  intros Hcs Ha Hb Hproto Hc.
  destruct (dict_loop_prefix cs kvs ws (c :: rest) Hcs Ha Hb Hproto)
    as (key & n & Hn & E).
  rewrite E. cbn [dict_loop].
  pose proof (not_ignored_suffix cs _ _ Hcs) as Hs.
  inversion Hs as [|? ? Hi _]; subst.
  apply String.eqb_neq in Hc. now rewrite Hi, Hn, Hc.
Qed.

Lemma dict_missing_key_witness :
  parsePlistXML
    (Element "dict"
       (Sample.dict_children ++ [Sample.str "v"; Sample.key "k"]))
  = Throw (InvariantViolation missing_key).
Proof.
  apply (dict_missing_key
           (Sample.dict_children ++ [Sample.str "v"; Sample.key "k"])
           Sample.dict_pairs Sample.dict_values
           (Sample.str "v") [Sample.key "k"]).
  - reflexivity.
  - repeat constructor; simpl; discriminate.
  - repeat constructor.
  - repeat constructor; simpl; discriminate.
  - simpl. discriminate.
Defined.

(** X14: after a well-formed run of pairs, a value element that throws
    makes the [<dict>] throw the same exception: no partial object is
    returned, and what follows is not looked at. *)
Theorem dict_value_failure_propagates cs kvs ws k v rest e :
  significant cs = interleave kvs ++ k :: v :: rest ->
  alternating kvs ->
  built kvs ws ->
  Forall (fun kv => key_text (fst kv) <> "__proto__") kvs ->
  nodeName k = "key" ->
  nodeName v <> "key" ->
  parsePlistXML v = Throw e ->
  parsePlistXML (Element "dict" cs) = Throw e.
Proof.
  intros Hcs Ha Hb Hproto Hk Hv He.
  destruct (dict_loop_prefix cs kvs ws (k :: v :: rest) Hcs Ha Hb Hproto)
    as (key & n & Hn & E).
  rewrite E. cbn [dict_loop].
  pose proof (not_ignored_suffix cs _ _ Hcs) as Hs.
  inversion Hs as [|? ? Hik Hs']; subst.
  inversion Hs' as [|? ? Hiv _]; subst.
  rewrite Hik, Hn, Hk. cbn.
  apply String.eqb_neq in Hv.
  now rewrite Hiv, (even_step n Hn), Hv, He.
Qed.

Lemma dict_value_failure_propagates_witness :
  parsePlistXML
    (Element "dict"
       (Sample.dict_children
          ++ [Sample.key "k"; Element "dict" [Sample.key "dangling"];
              Sample.key "rest"]))
  = Throw (Error (missing_value "dangling")).
Proof.
  apply (dict_value_failure_propagates
           (Sample.dict_children
              ++ [Sample.key "k"; Element "dict" [Sample.key "dangling"];
                  Sample.key "rest"])
           Sample.dict_pairs Sample.dict_values
           (Sample.key "k") (Element "dict" [Sample.key "dangling"])
           [Sample.key "rest"]).
  - reflexivity.
  - repeat constructor; simpl; discriminate.
  - repeat constructor.
  - repeat constructor; simpl; discriminate.
  - reflexivity.
  - simpl. discriminate.
  - reflexivity.
Defined.

(** ** The exceptions of the reader *)

Section LoopErrors.

Variable P : Node -> completion value.

Lemma plist_loop_error cs acc e :
  children_throw_reader_errors P cs ->
  plist_loop P cs acc = Throw e -> reader_error e.
Proof.
  intros H. revert acc. induction H as [|c cs Hc _ IH]; intros acc; simpl.
  - discriminate.
  - destruct (shouldIgnoreNode c); simpl; [apply IH|].
    destruct (P c) as [v|e'|] eqn:E; simpl; [apply IH| |discriminate].
    intros He. inversion He; subst. now apply Hc.
Qed.

Lemma array_loop_error cs acc e :
  children_throw_reader_errors P cs ->
  array_loop P cs acc = Throw e -> reader_error e.
Proof.
  intros H. revert acc. induction H as [|c cs Hc _ IH]; intros acc; simpl.
  - discriminate.
  - destruct (shouldIgnoreNode c); simpl; [apply IH|].
    destruct (P c) as [v|e'|] eqn:E; simpl; [| |discriminate].
    + destruct (loosely_null v); simpl; apply IH.
    + intros He. inversion He; subst. now apply Hc.
Qed.

Lemma dict_loop_error cs key n o e :
  children_throw_reader_errors P cs ->
  dict_loop P cs key n o = Throw e -> reader_error e.
Proof.
  intros H. revert key n o.
  induction H as [|c cs Hc _ IH]; intros key n o; cbn [dict_loop].
  - destruct (n mod 2 =? 1)%N; [|discriminate].
    intros He. inversion He. unfold reader_error. eauto 6.
  - destruct (shouldIgnoreNode c); [apply IH|].
    destruct (n mod 2 =? 0)%N.
    + destruct (nodeName c =? "key"); simpl; [apply IH|].
      intros He. inversion He. unfold reader_error. auto.
    + destruct (nodeName c =? "key").
      { unfold violated. rewrite format_message_unexpected_key.
        intros He. inversion He. unfold reader_error. eauto 6. }
      destruct (P c) as [v|e'|] eqn:E; simpl; [| |discriminate].
      * destruct (ToPrimitive v) as [[]|e'|] eqn:Ep; simpl;
          [| |discriminate].
        -- destruct (Obj.set o (Str.of_nullable key) v) as [o'|e'|] eqn:Es;
             simpl; [apply IH| |discriminate].
           now apply set_never_throws in Es.
        -- intros He. inversion He; subst.
           apply ToPrimitive_throws in Ep. subst. unfold reader_error.
           tauto.
      * intros He. inversion He; subst. now apply Hc.
Qed.

End LoopErrors.

Lemma parse_leaf_error name cs e :
  parse_leaf name cs = Throw e -> reader_error e.
Proof.
  unfold parse_leaf, violated, reader_error.
  repeat match goal with
         | |- context [if ?b then _ else _] => destruct b
         end;
    try destruct cs; intros H; inversion H; tauto.
Qed.

Lemma parsePlistXML_error node e :
  parsePlistXML node = Throw e -> reader_error e.
Proof.
  revert e.
  induction node as [name cs IH|v|v|v] using Node_tree_ind; intros e;
    try (simpl; discriminate).
  destruct (String.eqb_spec name "plist") as [->|N1].
  { rewrite parse_plist. now apply plist_loop_error. }
  destruct (String.eqb_spec name "dict") as [->|N2].
  { rewrite parse_dict. now apply dict_loop_error. }
  destruct (String.eqb_spec name "array") as [->|N3].
  { rewrite parse_array. now apply array_loop_error. }
  rewrite parse_other by assumption. apply parse_leaf_error.
Qed.

(** X15: whatever the tree, an exception of the reader is one of seven: the
    missing-key, unexpected-key and missing-value errors of a [<dict>], the
    violation of an empty [<integer>], [<real>] or [<date>], or a
    [TypeError] of the message concatenation; [parse] adds the
    malformed-document violation to them. *)
Theorem reader_errors_are_closed :
  (forall node e, parsePlistXML node = Throw e -> reader_error e)
  /\ (forall root e,
         parse root = Throw e ->
         e = InvariantViolation malformed_document \/ reader_error e).
Proof.
  split; [exact parsePlistXML_error|].
  intros root e. unfold parse.
  destruct (nodeName root =? "plist"); simpl.
  - destruct (parsePlistXML root) as [v|e'|] eqn:E; simpl.
    + destruct v as [| | | | | | |[|x [|y l]]|]; discriminate.
    + intros H. inversion H; subst. right.
      now apply (parsePlistXML_error root).
    + discriminate.
  - intros H. inversion H. now left.
Qed.

Lemma reader_errors_are_closed_witness :
  reader_error (InvariantViolation (unexpected_key "b")).
Proof.
  apply (proj1 reader_errors_are_closed
           (Element "dict" [Sample.key "a"; Sample.key "b"])).
  reflexivity.
Defined.

(** ** The properties of a returned object *)

Lemma assign_In k v k0 v0 ps :
  In (k, v) (Obj.assign k0 v0 ps) -> (k, v) = (k0, v0) \/ In (k, v) ps.
Proof.
  induction ps as [|[k1 v1] ps IH]; simpl.
  - intros [H|[]]. left. now symmetry.
  - destruct (k1 =? k0); simpl.
    + intros [H|H]; [left; now symmetry|right; now right].
    + intros [H|H]; [right; now left|].
      destruct (IH H) as [E|Hin]; [now left|right; now right].
Qed.

Lemma NoDup_snoc {A} (l : list A) x :
  NoDup l -> ~ In x l -> NoDup (l ++ [x]).
Proof.
  induction 1 as [|y l Hy _ IH]; simpl; intros Hx.
  - constructor; [intros []|constructor].
  - constructor.
    + rewrite in_app_iff. simpl. intros [H|[H|[]]]; [now apply Hy|].
      subst. apply Hx. now left.
    + apply IH. intros H. apply Hx. now right.
Qed.

Lemma assign_NoDup k v ps :
  NoDup (map fst ps) -> NoDup (map fst (Obj.assign k v ps)).
Proof.
  intros H. rewrite ObjFacts.keys_assign.
  destruct (mem k (map fst ps)) eqn:E; [assumption|].
  apply NoDup_snoc; [assumption|]. intros Hin.
  assert (mem k (map fst ps) = true); [|congruence].
  apply existsb_exists. exists k. split; [assumption|apply String.eqb_refl].
Qed.

Lemma set_properties o k0 v0 o1 :
  Obj.set o k0 v0 = Return o1 ->
  (forall k v,
      In (k, v) (properties o1) ->
      In (k, v) (properties o) \/ ((k, v) = (k0, v0) /\ k0 <> "__proto__"))
  /\ (NoDup (map fst (properties o)) -> NoDup (map fst (properties o1))).
Proof.
  unfold Obj.set. destruct (prototype o); [discriminate|].
  destruct (String.eqb_spec k0 "__proto__") as [->|Hne].
  - destruct (is_object v0 || is_null v0); intros H; inversion H; subst;
      simpl; split; auto.
  - intros H. inversion H; subst. simpl. split.
    + intros k v Hin. destruct (assign_In _ _ _ _ _ Hin); auto.
    + apply assign_NoDup.
Qed.

Lemma store_properties es :
  forall o o',
    store o es = Return o' ->
    (forall k v,
        In (k, v) (properties o') ->
        In (k, v) (properties o) \/ (In (k, v) es /\ k <> "__proto__"))
    /\ (NoDup (map fst (properties o)) -> NoDup (map fst (properties o'))).
Proof.
  induction es as [|[k0 v0] es IH]; intros o o'; simpl.
  - intros H. inversion H; subst. split; auto.
  - destruct (Obj.set o k0 v0) as [o1| |] eqn:Es; simpl; try discriminate.
    intros H. destruct (IH _ _ H) as [Hin Hnd].
    destruct (set_properties _ _ _ _ Es) as [Hin1 Hnd1]. split.
    + intros k v Hkv. destruct (Hin k v Hkv) as [H1|[H1 H2]].
      * destruct (Hin1 k v H1) as [H3|[H3 H4]]; [now left|].
        right. inversion H3; subst. split; [now left|assumption].
      * right. split; [now right|assumption].
    + intros Ho. apply Hnd, Hnd1, Ho.
Qed.

Lemma entries_In kvs ws k v :
  built kvs ws ->
  In (k, v) (entries kvs ws) ->
  exists kv,
    In kv kvs /\ key_text (fst kv) = k /\ parsePlistXML (snd kv) = Return v.
Proof.
  intros H. unfold entries.
  induction H as [|kv w kvs ws [Hw _] _ IH]; simpl; [intros []|].
  intros [E|Hin].
  - inversion E; subst. exists kv. repeat split; auto.
  - destruct (IH Hin) as (kv' & H1 & H2 & H3). exists kv'.
    repeat split; auto.
Qed.

Lemma interleave_In kvs kv :
  In kv kvs ->
  exists pre post, interleave kvs = pre ++ fst kv :: snd kv :: post.
Proof.
  intros H. apply in_split in H. destruct H as (l1 & l2 & ->).
  exists (interleave l1), (interleave l2).
  unfold interleave. now rewrite flat_map_app.
Qed.

(** X16: every property of the object a [<dict>] returns comes from the
    document: its name is the text of a key element, its value is what the
    element right after that key element builds to; no property is ever
    named [__proto__]. *)
Theorem dict_properties_come_from_pairs cs o k v :
  parsePlistXML (Element "dict" cs) = Return (JSObject o) ->
  In (k, v) (properties o) ->
  k <> "__proto__"
  /\ exists pre kn vn post,
       significant cs = pre ++ kn :: vn :: post
       /\ nodeName kn = "key"
       /\ key_text kn = k
       /\ parsePlistXML vn = Return v.
Proof.
  rewrite parse_dict, dict_loop_significant. intros H Hin.
  destruct (dict_loop_returns _ (significant_not_ignored cs)
              None 0%N Obj.empty _ eq_refl H)
    as (kvs & ws & o' & E & Ha & Hb & Hs & Ho).
  inversion Ho; subst o'.
  destruct (proj1 (store_properties _ _ _ Hs) k v Hin) as [[]|[He Hk]].
  split; [assumption|].
  destruct (entries_In _ _ _ _ Hb He) as ([kn vn] & Hkv & Hkt & Hv).
  destruct (interleave_In _ _ Hkv) as (pre & post & Ei).
  exists pre, kn, vn, post. rewrite E. repeat split; try assumption.
  unfold alternating in Ha. rewrite Forall_forall in Ha.
  now destruct (Ha _ Hkv).
Qed.

Lemma dict_properties_come_from_pairs_witness :
  "a" <> "__proto__"
  /\ exists pre kn vn post,
       significant Sample.dict_children = pre ++ kn :: vn :: post
       /\ nodeName kn = "key"
       /\ key_text kn = "a"
       /\ parsePlistXML vn = Return (JSBool true).
Proof.
  apply (dict_properties_come_from_pairs
           Sample.dict_children
           (mkObject None [("b", JSString "x"); ("a", JSBool true)])).
  - reflexivity.
  - simpl. right. now left.
Defined.

(** X17: the object a [<dict>] returns never holds two properties of the
    same name, however often a key text occurs in the document. *)
Theorem dict_keys_are_unique cs o :
  parsePlistXML (Element "dict" cs) = Return (JSObject o) ->
  NoDup (map fst (properties o)).
Proof.
  rewrite parse_dict, dict_loop_significant. intros H.
  destruct (dict_loop_returns _ (significant_not_ignored cs)
              None 0%N Obj.empty _ eq_refl H)
    as (kvs & ws & o' & E & Ha & Hb & Hs & Ho).
  inversion Ho; subst o'.
  apply (proj2 (store_properties _ _ _ Hs)). constructor.
Qed.

Lemma dict_keys_are_unique_witness :
  NoDup (map fst [("b", JSString "x"); ("a", JSBool true)]).
Proof.
  apply (dict_keys_are_unique
           Sample.dict_children
           (mkObject None [("b", JSString "x"); ("a", JSBool true)])).
  reflexivity.
Defined.

(** ** The root check *)

Lemma reader_never_reports_malformed_document e :
  reader_error e -> e <> InvariantViolation malformed_document.
Proof.
  unfold reader_error.
  intros [->|[[t ->]|[[t ->]|[->|[->|[->| ->]]]]]]; discriminate.
Qed.

(** X1: [parse] throws the malformed-document violation exactly when the
    root is not named [plist]; the reader is then not run, and it never
    throws that violation itself. *)
Theorem parse_rejects_other_root root :
  parse root = Throw (InvariantViolation malformed_document)
  <-> nodeName root <> "plist".
Proof.
  split.
  - intros H Hname. unfold parse in H. rewrite Hname in H.
    change (invariant _ _) with (@Return unit tt) in H. cbn [bind] in H.
    destruct (parsePlistXML root) as [v|e|] eqn:E; simpl in H.
    + destruct v as [| | | | | | |[|x [|y l]]|]; discriminate.
    + inversion H; subst.
      now apply (reader_never_reports_malformed_document
                   _ (parsePlistXML_error root _ E)).
    + discriminate.
  - intros H. unfold parse. apply String.eqb_neq in H. now rewrite H.
Qed.

Lemma parse_rejects_other_root_witness :
  parse (Element "dict" [Sample.key "a"; Sample.empty "true"])
  = Throw (InvariantViolation malformed_document).
Proof.
  apply parse_rejects_other_root. simpl. discriminate.
Defined.

(** ** Instances *)

Lemma plist_collects_every_child_witness :
  parsePlistXML
    (Element "plist" [Sample.empty "foo"; Text " "; Sample.empty "true"])
  = Return (JSArray [JSUndefined; JSBool true]).
Proof.
  apply (proj2 (plist_collects_every_child
                  [Sample.empty "foo"; Text " "; Sample.empty "true"]
                  (JSArray [JSUndefined; JSBool true]))).
  exists [JSUndefined; JSBool true]. repeat constructor.
Defined.

Lemma undefined_iff_unrecognized_witness :
  parsePlistXML (Element "foo" [Sample.empty "integer"]) = Return JSUndefined.
Proof.
  apply (proj2 (undefined_iff_unrecognized "foo" [Sample.empty "integer"])).
  simpl. intros H.
  repeat (destruct H as [H|H]; [discriminate H|]). exact H.
Defined.
